(** * dnspython: a shallow embedding of the resolver core

    The development follows the Python sources module by module:
    [dns/rcode.py], [dns/ttl.py], [dns/renderer.py], [dns/name.py],
    [dns/xfr.py] and [dns/resolver.py].  Python integers are unbounded and
    are modelled by [Z]; [bytes] labels and [str] values are modelled by
    [string] (a sequence of 8-bit code points), the renderer's buffer by a
    list of bytes; a raised exception is the left injection of a sum;
    dictionaries are [gmap]s; a loop that need not end takes a bound on
    its number of turns and gives [None] when the bound is reached. *)

From Stdlib Require Import ZArith Lia List String Ascii Bool.
From stdpp Require Import gmap strings list fin_maps.

(* ===================================================================== *)
(** ** dns/rcode.py *)
(* ===================================================================== *)

Module rcode.
Local Open Scope Z_scope.

Inductive error : Type := ValueError.

(** [class Rcode(dns.enum.IntEnum)]: the members, in declaration order.
    [BADSIG] is an alias of [BADVERS]. *)
Definition Rcode_members : list (string * Z) :=
  [ ("NOERROR", 0); ("FORMERR", 1); ("SERVFAIL", 2); ("NXDOMAIN", 3);
    ("NOTIMP", 4); ("REFUSED", 5); ("YXDOMAIN", 6); ("YXRRSET", 7);
    ("NXRRSET", 8); ("NOTAUTH", 9); ("NOTZONE", 10); ("DSOTYPENI", 11);
    ("BADVERS", 16); ("BADSIG", 16); ("BADKEY", 17); ("BADTIME", 18);
    ("BADMODE", 19); ("BADNAME", 20); ("BADALG", 21); ("BADTRUNC", 22);
    ("BADCOOKIE", 23) ].

(** [Rcode(value)]: the enumeration's lookup by value.  [dns.enum.IntEnum]
    adds only [make] to Python's [enum.IntEnum], so a value that no member
    carries raises [ValueError] (the very case [IntEnum.make] and
    [to_text] catch). *)
Definition Rcode (value : Z) : error + Z :=
  if existsb (fun m => snd m =? value) Rcode_members
  then inr value
  else inl ValueError.

Definition from_flags (flags ednsflags : Z) : error + Z :=
  let rcode := Z.lor (Z.land flags 0x000f)
                     (Z.land (Z.shiftr ednsflags 20) 0xff0) in
  if (0 <=? rcode) && (rcode <=? 4095)
  then Rcode rcode
  else inl ValueError.

Definition to_flags (value : Z) : error + (Z * Z) :=
  if (0 <=? value) && (value <=? 4095)
  then let flags := Z.land value 0x000f in
       let ednsflags := Z.shiftl (Z.land value 0xff0) 20 in
       inr (flags, ednsflags)
  else inl ValueError.

(** [from_flags( *to_flags(r) )] *)
Definition roundtrip (r : Z) : error + Z :=
  match to_flags r with
  | inl e => inl e
  | inr (flags, ednsflags) => from_flags flags ednsflags
  end.

(** The twelve bits put together by [from_flags] are those taken apart by
    [to_flags]. *)
Lemma bits_roundtrip (r : Z) :
  0 <= r <= 4095 ->
  Z.lor (Z.land (Z.land r 0x000f) 0x000f)
        (Z.land (Z.shiftr (Z.shiftl (Z.land r 0xff0) 20) 20) 0xff0) = r.
Proof.
  intros Hr.
  rewrite Z.shiftr_shiftl_l by lia.
  replace (20 - 20) with 0 by lia. rewrite Z.shiftl_0_r.
  rewrite <- !Z.land_assoc.
  change (Z.land 0x000f 0x000f) with 0x000f.
  change (Z.land 0xff0 0xff0) with 0xff0.
  rewrite <- Z.land_lor_distr_r.
  change (Z.lor 0x000f 0xff0) with (Z.ones 12).
  rewrite Z.land_ones by lia.
  apply Z.mod_small. change (2 ^ 12) with 4096. lia.
Qed.

Lemma to_flags_in_range (r : Z) :
  0 <= r <= 4095 ->
  to_flags r = inr (Z.land r 0x000f, Z.shiftl (Z.land r 0xff0) 20).
Proof.
  intros Hr. unfold to_flags.
  destruct (Z.leb_spec 0 r); [|lia].
  destruct (Z.leb_spec r 4095); [|lia].
  reflexivity.
Qed.

(** On the whole range the composition is the enumeration lookup of [r]:
    it returns [r] when [r] is the value of a member and raises otherwise. *)
Lemma roundtrip_is_lookup (r : Z) :
  0 <= r <= 4095 -> roundtrip r = Rcode r.
Proof.
  intros Hr. unfold roundtrip. rewrite (to_flags_in_range r Hr).
  unfold from_flags. cbv zeta. rewrite (bits_roundtrip r Hr).
  destruct (Z.leb_spec 0 r); [|lia].
  destruct (Z.leb_spec r 4095); [|lia].
  reflexivity.
Qed.

Lemma roundtrip_member (r : Z) :
  In r (map snd Rcode_members) -> roundtrip r = inr r.
Proof.
  intros Hin.
  assert (Hr : 0 <= r <= 4095).
  { cbn in Hin. repeat (destruct Hin as [<-|Hin]; [lia|]). destruct Hin. }
  rewrite (roundtrip_is_lookup r Hr). unfold Rcode.
  replace (existsb _ Rcode_members) with true; [reflexivity|].
  symmetry. apply existsb_exists.
  apply in_map_iff in Hin as [m [Hm Hin]].
  exists m. split; [exact Hin|]. apply Z.eqb_eq. exact Hm.
Qed.

(** C3, evaluated on the code: [to_flags(12)] succeeds with [(12, 0)], and
    [from_flags(12, 0)] computes 12 but then raises [ValueError], because
    12 is the value of no [Rcode] member.  The composition does not return
    12. *)
Theorem from_flags_to_flags_12_raises :
  to_flags 12 = inr (12, 0) /\
  from_flags 12 0 = inl ValueError /\
  roundtrip 12 <> inr 12.
Proof.
  split; [reflexivity|]. split; [reflexivity|]. discriminate.
Qed.

(** *** Further facts about the flag encoding *)

(** The value [from_flags] puts together before it looks it up. *)
Definition raw_rcode (flags ednsflags : Z) : Z :=
  Z.lor (Z.land flags 0x000f) (Z.land (Z.shiftr ednsflags 20) 0xff0).

Lemma raw_rcode_range (flags ednsflags : Z) :
  0 <= raw_rcode flags ednsflags <= 4095.
Proof.
  assert (Hlow : raw_rcode flags ednsflags =
                 Z.land (raw_rcode flags ednsflags) (Z.ones 12)).
  { unfold raw_rcode. rewrite Z.land_lor_distr_l, <- !Z.land_assoc.
    reflexivity. }
  rewrite Z.land_ones in Hlow by lia.
  pose proof (Z.mod_pos_bound (raw_rcode flags ednsflags) (2 ^ 12)) as Hb.
  change (2 ^ 12) with 4096 in *. lia.
Qed.

(** For all integers, [from_flags] is the enumeration lookup of a value
    between 0 and 4095, so that its own "out of range" error is never
    raised; and it reads nothing but the low four bits of [flags] and
    bits 24 to 31 of [ednsflags]. *)
Theorem from_flags_reads_twelve_bits (flags ednsflags : Z) :
  0 <= raw_rcode flags ednsflags <= 4095 /\
  from_flags flags ednsflags = Rcode (raw_rcode flags ednsflags) /\
  from_flags flags ednsflags =
  from_flags (Z.land flags 0x000f) (Z.land ednsflags 0xff000000).
Proof.
  pose proof (raw_rcode_range flags ednsflags) as Hr.
  assert (Hlook : forall f e, from_flags f e = Rcode (raw_rcode f e)).
  { intros f e. pose proof (raw_rcode_range f e) as Hfe.
    unfold from_flags. fold (raw_rcode f e). cbv zeta.
    destruct (Z.leb_spec 0 (raw_rcode f e)); [|lia].
    destruct (Z.leb_spec (raw_rcode f e) 4095); [|lia].
    reflexivity. }
  split; [exact Hr|]. split; [apply Hlook|].
  rewrite !Hlook. f_equal. unfold raw_rcode.
  rewrite Z.shiftr_land, <- !Z.land_assoc. reflexivity.
Qed.

Lemma land_high_byte (r : Z) :
  0 <= r <= 4095 -> Z.land r 0xff0 = 16 * (r / 16).
Proof.
  intros Hr.
  pose proof (Z.add_lor_land (Z.land r 0x000f) (Z.land r 0xff0)) as Hsum.
  rewrite <- Z.land_lor_distr_r in Hsum.
  replace (Z.land (Z.land r 0x000f) (Z.land r 0xff0)) with 0 in Hsum.
  - change (Z.lor 0x000f 0xff0) with (Z.ones 12) in Hsum.
    change 0x000f with (Z.ones 4) in Hsum.
    rewrite !Z.land_ones in Hsum by lia.
    change (2 ^ 12) with 4096 in Hsum. change (2 ^ 4) with 16 in Hsum.
    rewrite (Z.mod_small r 4096) in Hsum by lia.
    pose proof (Z.div_mod r 16). lia.
  - rewrite Z.land_assoc, (Z.land_comm (Z.land r 0x000f) r), Z.land_assoc,
      Z.land_diag, <- Z.land_assoc.
    change (Z.land 0x000f 0xff0) with 0. rewrite Z.land_0_r. reflexivity.
Qed.

(** [to_flags] accepts exactly the values from 0 to 4095; the low four
    bits go to [flags] and the upper eight go to the top byte of the
    32-bit [ednsflags], whose other bits are zero. *)
Theorem to_flags_layout (r : Z) :
  (0 <= r <= 4095 ->
     to_flags r = inr (r mod 16, (r / 16) * 2 ^ 24) /\
     0 <= r mod 16 <= 15 /\
     0 <= (r / 16) * 2 ^ 24 < 2 ^ 32) /\
  (r < 0 \/ 4095 < r -> to_flags r = inl ValueError).
Proof.
  split.
  - intros Hr. rewrite (to_flags_in_range r Hr).
    change 0x000f with (Z.ones 4). rewrite Z.land_ones by lia.
    rewrite (land_high_byte r Hr), Z.shiftl_mul_pow2 by lia.
    change (2 ^ 4) with 16.
    pose proof (Z.mod_pos_bound r 16 ltac:(lia)).
    assert (0 <= r / 16 < 256).
    { split; [apply Z.div_pos; lia|].
      apply Z.div_lt_upper_bound; lia. }
    split; [f_equal; f_equal; lia|].
    split; [change (Z.ones 4) with 15; lia|].
    change (2 ^ 24) with 16777216.
    change (2 ^ 32) with 4294967296. lia.
  - intros Hout. unfold to_flags.
    destruct (Z.leb_spec 0 r); destruct (Z.leb_spec r 4095);
      cbn [andb]; try reflexivity; lia.
Qed.

Lemma roundtrip_member_witness : roundtrip 16 = inr 16.
Proof.
  apply (roundtrip_member 16). cbn. tauto.
Defined.

Lemma to_flags_layout_witness :
  to_flags 16 = inr (16 mod 16, (16 / 16) * 2 ^ 24) /\
  0 <= 16 mod 16 <= 15 /\
  0 <= (16 / 16) * 2 ^ 24 < 2 ^ 32.
Proof.
  apply (proj1 (to_flags_layout 16)). lia.
Defined.

End rcode.

(* ===================================================================== *)
(** ** dns/ttl.py *)
(* ===================================================================== *)

Module ttl.
Local Open Scope Z_scope.

Definition MAX_TTL : Z := 2 ^ 32 - 1.

(** [BadTTL] is the module's syntax error; [ValueError] is what [int()]
    raises on a string that is not a decimal numeral. *)
Inductive error : Type := BadTTL | ValueError.

Definition ord (c : ascii) : Z := Z.of_N (N_of_ascii c).

(** [str.isdigit] on the code points below 256: the ASCII digits and the
    superscripts two, three and one. *)
Definition isdigit (c : ascii) : bool :=
  let n := ord c in
  ((48 <=? n) && (n <=? 57)) || (n =? 178) || (n =? 179) || (n =? 185).

(** [str.isalpha] on the code points below 256. *)
Definition isalpha (c : ascii) : bool :=
  let n := ord c in
  ((65 <=? n) && (n <=? 90)) || ((97 <=? n) && (n <=? 122))
  || (n =? 170) || (n =? 181) || (n =? 186)
  || ((192 <=? n) && (n <=? 214)) || ((216 <=? n) && (n <=? 246))
  || ((248 <=? n) && (n <=? 255)).

(** [int(value)] for a non-empty string of [isdigit] characters: the
    decimal value, or [ValueError] when a character is no decimal digit
    (the interpreter's cap on the number of digits is left out). *)
Fixpoint int_from (acc : Z) (value : string) : error + Z :=
  match value with
  | EmptyString => inr acc
  | String c rest =>
      let n := ord c in
      if (48 <=? n) && (n <=? 57)
      then int_from (acc * 10 + (n - 48)) rest
      else inl ValueError
  end.

Definition int (value : string) : error + Z := int_from 0 value.

Definition is_empty (s : string) : bool :=
  match s with EmptyString => true | String _ _ => false end.

(** The [for char in text] loop, carrying [total_seconds] and [value]. *)
Fixpoint scan (text : string) (total_seconds : Z) (value : string)
  : error + (Z * string) :=
  match text with
  | EmptyString => inr (total_seconds, value)
  | String char rest =>
      if isdigit char then
        scan rest total_seconds (String.append value (String char EmptyString))
      else if isalpha char then
        if is_empty value then inl BadTTL
        else
          match int value with
          | inl e => inl e
          | inr seconds =>
              if Ascii.eqb char "w" then
                scan rest (total_seconds + seconds * 7 * 24 * 3600) EmptyString
              else if Ascii.eqb char "d" then
                scan rest (total_seconds + seconds * 24 * 3600) EmptyString
              else if Ascii.eqb char "h" then
                scan rest (total_seconds + seconds * 3600) EmptyString
              else if Ascii.eqb char "m" then
                scan rest (total_seconds + seconds * 60) EmptyString
              else if Ascii.eqb char "s" then
                scan rest (total_seconds + seconds) EmptyString
              else inl BadTTL
          end
      else inl BadTTL
  end.

Definition from_text (text : string) : error + Z :=
  if is_empty text then inl BadTTL
  else
    match scan text 0 EmptyString with
    | inl e => inl e
    | inr (total_seconds, value) =>
        let tail := if is_empty value then inr 0 else int value in
        match tail with
        | inl e => inl e
        | inr v =>
            let total_seconds := total_seconds + v in
            if total_seconds >? MAX_TTL then inl BadTTL
            else inr total_seconds
        end
    end.

(** C4, as the specification states it, fails on its first input: the code
    adds one week, two days and three hours, which is 788400 seconds and
    not 777600. *)
Lemma from_text_1w2d3h_not_777600 :
  ~ (from_text "1w2d3h" = inr 777600 /\
     from_text "5m" = inr 300 /\
     from_text "86400" = inr 86400 /\
     from_text "1x" = inl BadTTL).
Proof.
  intros [H _]. vm_compute in H. discriminate H.
Qed.

(** C4 (amended): [from_text('1w2d3h')] is 788400 (604800 + 172800 +
    10800), [from_text('5m')] is 300, [from_text('86400')] is 86400 and
    [from_text('1x')] raises [BadTTL]. *)
Theorem from_text_scenarios :
  from_text "1w2d3h" = inr 788400 /\
  from_text "5m" = inr 300 /\
  from_text "86400" = inr 86400 /\
  from_text "1x" = inl BadTTL.
Proof.
  repeat split; vm_compute; reflexivity.
Qed.

(** *** The syntax [from_text] accepts and the value it gives *)

Definition is_decimal_digit (c : ascii) : bool :=
  (48 <=? ord c) && (ord c <=? 57).

Fixpoint is_decimal (s : string) : bool :=
  match s with
  | EmptyString => true
  | String c rest => is_decimal_digit c && is_decimal rest
  end.


(** The seconds in a unit, by its letter. *)
Definition unit_seconds (c : ascii) : option Z :=
  if Ascii.eqb c "w" then Some 604800
  else if Ascii.eqb c "d" then Some 86400
  else if Ascii.eqb c "h" then Some 3600
  else if Ascii.eqb c "m" then Some 60
  else if Ascii.eqb c "s" then Some 1
  else None.

(** A text made of groups (digits, then a unit letter) and of digits at
    the end, and the number of seconds it stands for. *)
Fixpoint render (groups : list (string * ascii)) (tail : string) : string :=
  match groups with
  | [] => tail
  | (digits, u) :: rest =>
      String.append digits (String u (render rest tail))
  end.


Definition group_ok (g : string * ascii) : Prop :=
  is_decimal (fst g) = true /\ is_empty (fst g) = false /\
  is_Some (unit_seconds (snd g)).








Lemma is_empty_append (a b : string) :
  is_empty (String.append a b) = is_empty a && is_empty b.
Proof. destruct a; reflexivity. Qed.










Lemma render_is_empty (groups : list (string * ascii)) (tail : string) :
  Forall group_ok groups ->
  is_empty (render groups tail) =
  match groups with [] => is_empty tail | _ => false end.
Proof.
  destruct groups as [|[digits u] groups]; [reflexivity|].
  intros Hg. inversion Hg as [|g gs (Hd & Hne & Hu) Hrest]; subst.
  cbn [render fst] in *. rewrite is_empty_append, Hne. reflexivity.
Qed.






End ttl.

(* ===================================================================== *)
(** ** dns/renderer.py *)
(* ===================================================================== *)

Module renderer.
Local Open Scope Z_scope.

Definition QUESTION : Z := 0.
Definition ANSWER : Z := 1.
Definition AUTHORITY : Z := 2.
Definition ADDITIONAL : Z := 3.

Inductive error : Type := FormError | ValueError.

(** [io.BytesIO]: the bytes written so far and the stream position. *)
Record BytesIO : Type := mkBytesIO {
  buffer : list Byte.byte;
  position : Z
}.

(** [BytesIO.seek(where)]: a negative offset raises [ValueError]. *)
Definition seek (where_ : Z) (f : BytesIO) : error + BytesIO :=
  if where_ <? 0 then inl ValueError
  else inr (mkBytesIO (buffer f) where_).

(** [BytesIO.truncate()]: cut the buffer at the current position; a
    position past the end leaves the buffer as it is. *)
Definition truncate (f : BytesIO) : BytesIO :=
  if position f <? Z.of_nat (length (buffer f))
  then mkBytesIO (take (Z.to_nat (position f)) (buffer f)) (position f)
  else f.

Section Renderer.
(** [dns.name.Name] is the key type of the compression table; only its
    equality is used here. *)
Context {Name : Type} `{Countable Name}.

Record Renderer : Type := mkRenderer {
  output : BytesIO;
  id : Z;
  flags : Z;
  max_size : Z;
  origin : option Name;
  compress : gmap Name Z;
  section : Z;
  counts : list Z;
  mac : list Byte.byte;
  reserved : Z;
  was_padded : bool
}.

Definition with_output (o : BytesIO) (self : Renderer) : Renderer :=
  mkRenderer o (id self) (flags self) (max_size self) (origin self)
    (compress self) (section self) (counts self) (mac self) (reserved self)
    (was_padded self).

Definition with_compress (c : gmap Name Z) (self : Renderer) : Renderer :=
  mkRenderer (output self) (id self) (flags self) (max_size self)
    (origin self) c (section self) (counts self) (mac self) (reserved self)
    (was_padded self).

Definition with_section (s : Z) (self : Renderer) : Renderer :=
  mkRenderer (output self) (id self) (flags self) (max_size self)
    (origin self) (compress self) s (counts self) (mac self) (reserved self)
    (was_padded self).

(** A method either returns or raises, and leaves the renderer in some
    state either way. *)
Definition M (A : Type) : Type := Renderer -> (error + A) * Renderer.

(** One turn of [for k, v in list(self.compress.items())]. *)
Definition purge_step (where_ : Z) (table : gmap Name Z) (kv : Name * Z)
  : gmap Name Z :=
  if where_ <=? snd kv then delete (fst kv) table else table.

Definition _rollback (where_ : Z) : M unit := fun self =>
  match seek where_ (output self) with
  | inl e => (inl e, self)
  | inr out =>
      let self1 := with_output (truncate out) self in
      let items := map_to_list (compress self1) in
      let table := foldl (purge_step where_) (compress self1) items in
      (inr tt, with_compress table self1)
  end.

Definition _set_section (section_ : Z) : M unit := fun self =>
  if negb (section self =? section_) then
    if section self <? section_
    then (inr tt, with_section section_ self)
    else (inl FormError, self)
  else (inr tt, self).

(** A run of section writes, stopping at the first one that raises. *)
Fixpoint set_sections (sections : list Z) : M unit := fun self =>
  match sections with
  | [] => (inr tt, self)
  | s :: rest =>
      match _set_section s self with
      | (inr _, self') => set_sections rest self'
      | (inl e, self') => (inl e, self')
      end
  end.

(** *** The purge loop *)

Lemma purge_keeps_absent (where_ : Z) (items : list (Name * Z))
  (table : gmap Name Z) (k : Name) :
  table !! k = None -> foldl (purge_step where_) table items !! k = None.
Proof.
  revert table. induction items as [|[k' v'] items IH]; intros table Hk.
  - exact Hk.
  - cbn [foldl]. apply IH. unfold purge_step. cbn [fst snd].
    destruct (where_ <=? v'); [|exact Hk].
    destruct (decide (k' = k)) as [->|Hne].
    + apply lookup_delete_eq.
    + rewrite lookup_delete_ne by exact Hne. exact Hk.
Qed.

Lemma purge_removes (where_ : Z) (items : list (Name * Z))
  (table : gmap Name Z) (k : Name) (v : Z) :
  (k, v) ∈ items -> where_ <= v ->
  foldl (purge_step where_) table items !! k = None.
Proof.
  revert table. induction items as [|[k' v'] items IH]; intros table Hin Hv.
  - inversion Hin.
  - cbn [foldl]. apply elem_of_cons in Hin as [Heq|Hin].
    + inversion Heq; subst k' v'. apply purge_keeps_absent.
      unfold purge_step. cbn [fst snd].
      destruct (Z.leb_spec where_ v); [|lia]. apply lookup_delete_eq.
    + apply IH; assumption.
Qed.

Lemma purge_keeps_below (where_ : Z) (items : list (Name * Z))
  (table : gmap Name Z) (k : Name) :
  (forall v, (k, v) ∈ items -> v < where_) ->
  foldl (purge_step where_) table items !! k = table !! k.
Proof.
  revert table. induction items as [|[k' v'] items IH]; intros table Hall.
  - reflexivity.
  - cbn [foldl]. rewrite IH.
    + unfold purge_step. cbn [fst snd].
      destruct (Z.leb_spec where_ v') as [Hle|Hlt]; [|reflexivity].
      destruct (decide (k' = k)) as [->|Hne].
      * specialize (Hall v' ltac:(left)). lia.
      * apply lookup_delete_ne. exact Hne.
    + intros v Hin. apply Hall. right. exact Hin.
Qed.

Lemma truncate_seek_buffer (where_ : Z) (f : BytesIO) :
  0 <= where_ <= Z.of_nat (length (buffer f)) ->
  exists out, seek where_ f = inr out /\
    buffer (truncate out) = take (Z.to_nat where_) (buffer f).
Proof.
  intros Hw. unfold seek. destruct (Z.ltb_spec where_ 0); [lia|].
  eexists. split; [reflexivity|]. unfold truncate. cbn [position buffer].
  destruct (Z.ltb_spec where_ (Z.of_nat (length (buffer f)))).
  - reflexivity.
  - cbn [buffer]. symmetry. apply take_ge. lia.
Qed.

(** C8: for an offset [where] between 0 and the length of the buffer,
    [_rollback(where)] returns, the buffer becomes its former prefix of
    length [where], every compression entry with an offset [>= where] is
    gone and every entry with an offset [< where] is kept with its
    offset; no entry appears that was not there. *)
Theorem rollback_truncates_and_purges (self : Renderer) (where_ : Z) :
  0 <= where_ <= Z.of_nat (length (buffer (output self))) ->
  exists self',
    _rollback where_ self = (inr tt, self') /\
    buffer (output self') = take (Z.to_nat where_) (buffer (output self)) /\
    length (buffer (output self')) = Z.to_nat where_ /\
    (forall k v, compress self !! k = Some v -> where_ <= v ->
                 compress self' !! k = None) /\
    (forall k v, compress self !! k = Some v -> v < where_ ->
                 compress self' !! k = Some v) /\
    (forall k v, compress self' !! k = Some v ->
                 compress self !! k = Some v /\ v < where_).
Proof.
  intros Hw. unfold _rollback.
  destruct (truncate_seek_buffer where_ (output self) Hw) as [out [-> Hbuf]].
  eexists. split; [reflexivity|]. cbn [output compress with_compress with_output].
  assert (Hrm : forall k v, compress self !! k = Some v -> where_ <= v ->
    foldl (purge_step where_) (compress self) (map_to_list (compress self))
      !! k = None).
  { intros k v Hk Hv. apply (purge_removes where_ _ _ k v); [|exact Hv].
    apply elem_of_map_to_list. exact Hk. }
  assert (Hkeep : forall k v, compress self !! k = Some v -> v < where_ ->
    foldl (purge_step where_) (compress self) (map_to_list (compress self))
      !! k = Some v).
  { intros k v Hk Hv. rewrite purge_keeps_below; [exact Hk|].
    intros v' Hin. apply elem_of_map_to_list in Hin.
    rewrite Hk in Hin. inversion Hin; subst. exact Hv. }
  split; [exact Hbuf|]. split; [rewrite Hbuf; rewrite length_take; lia|].
  split; [exact Hrm|]. split; [exact Hkeep|].
  intros k v Hk.
  destruct (compress self !! k) as [v0|] eqn:Hold.
  - destruct (Z.lt_ge_cases v0 where_) as [Hlt|Hge].
    + rewrite (Hkeep k v0 Hold Hlt) in Hk. inversion Hk; subst. split; [reflexivity|exact Hlt].
    + rewrite (Hrm k v0 Hold Hge) in Hk. discriminate Hk.
  - rewrite purge_keeps_absent in Hk by exact Hold. discriminate Hk.
Qed.

(** C7: a write into a section at or after the current one returns, and
    the renderer is then in that section (a later section may be entered
    directly, the current one re-entered); a write into an earlier section
    raises [FormError] and leaves the renderer, its section included, as
    it was.  A run of writes inherits this one write at a time. *)
Theorem set_section_monotone (self : Renderer) (section_ : Z) :
  (section self <= section_ ->
     _set_section section_ self = (inr tt, with_section section_ self)) /\
  (section_ < section self ->
     _set_section section_ self = (inl FormError, self)) /\
  (forall rest,
     section self <= section_ ->
     set_sections (section_ :: rest) self =
     set_sections rest (with_section section_ self)) /\
  (forall rest,
     section_ < section self ->
     set_sections (section_ :: rest) self = (inl FormError, self)).
Proof.
  assert (Hup : section self <= section_ ->
     _set_section section_ self = (inr tt, with_section section_ self)).
  { intros Hle. unfold _set_section.
    destruct (Z.eqb_spec (section self) section_) as [Heq|Hne]; cbn [negb].
    - subst section_. destruct self; reflexivity.
    - destruct (Z.ltb_spec (section self) section_); [reflexivity|lia]. }
  assert (Hdown : section_ < section self ->
     _set_section section_ self = (inl FormError, self)).
  { intros Hlt. unfold _set_section.
    destruct (Z.eqb_spec (section self) section_) as [Heq|Hne]; cbn [negb]; [lia|].
    destruct (Z.ltb_spec (section self) section_); [lia|reflexivity]. }
  split; [exact Hup|]. split; [exact Hdown|]. split.
  - intros rest Hle. cbn [set_sections]. rewrite (Hup Hle). reflexivity.
  - intros rest Hlt. cbn [set_sections]. rewrite (Hdown Hlt). reflexivity.
Qed.

(** *** Rollbacks at any offset, and one after another *)

Lemma purge_is_filter (where_ : Z) (table : gmap Name Z) :
  foldl (purge_step where_) table (map_to_list table) =
  filter (fun kv => snd kv < where_) table.
Proof.
  apply map_eq. intros k. destruct (table !! k) as [v|] eqn:Hk.
  - destruct (Z.lt_ge_cases v where_) as [Hlt|Hge].
    + rewrite purge_keeps_below.
      * rewrite Hk. symmetry. apply map_lookup_filter_Some.
        split; [exact Hk|exact Hlt].
      * intros v' Hin. apply elem_of_map_to_list in Hin.
        rewrite Hk in Hin. inversion Hin; subst. exact Hlt.
    + rewrite (purge_removes where_ _ _ k v);
        [|apply elem_of_map_to_list; exact Hk|exact Hge].
      symmetry. apply map_lookup_filter_None. right.
      intros v' Hk'. rewrite Hk in Hk'. inversion Hk'; subst.
      cbn [snd]. lia.
  - rewrite purge_keeps_absent by exact Hk.
    symmetry. apply map_lookup_filter_None. left. exact Hk.
Qed.

Lemma rollback_state (self : Renderer) (where_ : Z) :
  0 <= where_ ->
  _rollback where_ self =
  (inr tt,
   with_compress (filter (fun kv => snd kv < where_) (compress self))
     (with_output
        (mkBytesIO (take (Z.to_nat where_) (buffer (output self))) where_)
        self)).
Proof.
  intros Hw. unfold _rollback, seek.
  destruct (Z.ltb_spec where_ 0); [lia|].
  assert (Ht : truncate (mkBytesIO (buffer (output self)) where_) =
               mkBytesIO (take (Z.to_nat where_) (buffer (output self)))
                         where_).
  { unfold truncate. cbn [position buffer].
    destruct (Z.ltb_spec where_ (Z.of_nat (length (buffer (output self)))));
      [reflexivity|].
    rewrite take_ge by lia. reflexivity. }
  rewrite Ht. cbv zeta. cbn [compress with_output].
  rewrite purge_is_filter. reflexivity.
Qed.


(** A rollback to [w1] followed by a rollback to an offset [w2] that is
    not after [w1] leaves the renderer as the rollback to [w2] alone does. *)
Theorem rollback_twice (self : Renderer) (w1 w2 : Z) :
  0 <= w2 <= w1 ->
  _rollback w2 (snd (_rollback w1 self)) = _rollback w2 self.
Proof.
  intros Hw.
  rewrite (rollback_state self w1) by lia. cbn [snd].
  rewrite !(rollback_state _ w2) by lia.
  f_equal. destruct self as [out i f ms o c sec cnt m r wp].
  unfold with_compress, with_output. cbn. f_equal.
  - f_equal. rewrite take_take. f_equal. lia.
  - apply map_eq. intros k.
    destruct (filter (fun kv => snd kv < w2) c !! k) as [v|] eqn:Hk.
    + apply map_lookup_filter_Some in Hk as [Hk Hlt]. cbn [snd] in Hlt.
      apply map_lookup_filter_Some. split; [|exact Hlt].
      apply map_lookup_filter_Some. split; [exact Hk|cbn [snd]; lia].
    + apply map_lookup_filter_None in Hk.
      apply map_lookup_filter_None.
      destruct Hk as [Hk|Hk].
      * left. apply map_lookup_filter_None. left. exact Hk.
      * right. intros v Hv. apply map_lookup_filter_Some in Hv as [Hv _].
        apply Hk. exact Hv.
Qed.

(** *** Runs of section writes *)

(** The sections of a run never go down, starting from [s]. *)
Fixpoint in_order (s : Z) (sections : list Z) : bool :=
  match sections with
  | [] => true
  | x :: rest => (s <=? x) && in_order x rest
  end.

Lemma set_section_up (self : Renderer) (s : Z) :
  section self <= s -> _set_section s self = (inr tt, with_section s self).
Proof.
  intros Hle. unfold _set_section.
  destruct (Z.eqb_spec (section self) s) as [Heq|Hne]; cbn [negb].
  - subst s. destruct self; reflexivity.
  - destruct (Z.ltb_spec (section self) s); [reflexivity|lia].
Qed.

Lemma set_section_down (self : Renderer) (s : Z) :
  s < section self -> _set_section s self = (inl FormError, self).
Proof.
  intros Hlt. unfold _set_section.
  destruct (Z.eqb_spec (section self) s) as [Heq|Hne]; cbn [negb]; [lia|].
  destruct (Z.ltb_spec (section self) s); [lia|reflexivity].
Qed.

Lemma last_from (rest : list Z) : forall s d : Z,
  List.last (s :: rest) d = List.last rest s.
Proof.
  induction rest as [|x rest IH]; intros s d; [reflexivity|].
  change (List.last (s :: x :: rest) d) with (List.last (x :: rest) d).
  rewrite !IH. reflexivity.
Qed.

(** A run of section writes returns exactly when its sections never go
    down from the current one, and the renderer is then in the last
    section of the run; otherwise the run stops with [FormError]. *)
Theorem set_sections_in_order (sections : list Z) : forall self : Renderer,
  (in_order (section self) sections = true ->
     set_sections sections self =
     (inr tt, with_section (List.last sections (section self)) self)) /\
  (in_order (section self) sections = false ->
     fst (set_sections sections self) = inl FormError).
Proof.
  induction sections as [|s rest IH]; intros self.
  - split; [|discriminate]. intros _. destruct self; reflexivity.
  - cbn [in_order set_sections].
    destruct (Z.leb_spec (section self) s) as [Hle|Hlt]; cbn [andb].
    + rewrite (set_section_up self s Hle).
      destruct (IH (with_section s self)) as [Hok Hbad].
      cbn [section with_section] in Hok, Hbad.
      split; [|exact Hbad].
      intros Hin. rewrite (Hok Hin), last_from. reflexivity.
    + split; [discriminate|]. intros _.
      rewrite (set_section_down self s Hlt). reflexivity.
Qed.

End Renderer.

(** A renderer as [__init__] leaves it, with twelve header bytes written,
    then five more bytes and two names in the table. *)
Definition sample : @Renderer string _ _ :=
  mkRenderer
    (mkBytesIO (replicate 17 Byte.x00) 17) 1 0 65535 None
    (<["root" := 0]> (<["example" := 12]> ∅)) ANSWER [1; 0; 0; 0] [] 0 false.

Lemma rollback_truncates_and_purges_witness :
  exists self',
    _rollback 12 sample = (inr tt, self') /\
    buffer (output self') = take (Z.to_nat 12) (buffer (output sample)) /\
    length (buffer (output self')) = Z.to_nat 12 /\
    (forall k v, compress sample !! k = Some v -> 12 <= v ->
                 compress self' !! k = None) /\
    (forall k v, compress sample !! k = Some v -> v < 12 ->
                 compress self' !! k = Some v) /\
    (forall k v, compress self' !! k = Some v ->
                 compress sample !! k = Some v /\ v < 12).
Proof.
  apply (rollback_truncates_and_purges sample 12). cbn. lia.
Defined.

(** From the answer section the additional section may be entered
    directly; the question section may not be entered again. *)
Lemma set_section_monotone_witness :
  _set_section ADDITIONAL sample = (inr tt, with_section ADDITIONAL sample) /\
  _set_section QUESTION sample = (inl FormError, sample).
Proof.
  split.
  - apply (proj1 (set_section_monotone sample ADDITIONAL)).
    vm_compute. discriminate.
  - apply (proj1 (proj2 (set_section_monotone sample QUESTION))).
    reflexivity.
Defined.


Lemma rollback_twice_witness :
  _rollback 5 (snd (_rollback 12 sample)) = _rollback 5 sample.
Proof.
  apply (rollback_twice sample 12 5). split; discriminate.
Defined.

Lemma set_sections_in_order_witness :
  set_sections [ANSWER; ANSWER; ADDITIONAL] sample =
  (inr tt,
   with_section (List.last [ANSWER; ANSWER; ADDITIONAL] (section sample))
                sample) /\
  fst (set_sections [ADDITIONAL; AUTHORITY] sample) = inl FormError.
Proof.
  split.
  - apply (proj1 (set_sections_in_order [ANSWER; ANSWER; ADDITIONAL] sample)).
    reflexivity.
  - apply (proj2 (set_sections_in_order [ADDITIONAL; AUTHORITY] sample)).
    reflexivity.
Defined.

End renderer.

(* ===================================================================== *)
(** ** dns/name.py *)
(* ===================================================================== *)

Module name.
Local Open Scope Z_scope.

Inductive error : Type :=
| NameTooLong
| LabelTooLong
| EmptyLabel
| UnicodeEncodeError.

(** [len(label)] and the integer value of an octet. *)
Definition len (label : string) : Z := Z.of_nat (String.length label).
Definition ord (c : ascii) : Z := Z.of_N (N_of_ascii c).

Definition is_empty (label : string) : bool :=
  match label with EmptyString => true | String _ _ => false end.

(** [sum(len(label) + 1 for label in labels)] *)
Definition total_length (labels : list string) : Z :=
  foldr (fun label acc => (len label + 1) + acc) 0 labels.

(** [for i, label in enumerate(labels)], where [n] is [len(labels)]. *)
Fixpoint check_labels (i n : Z) (labels : list string) : error + unit :=
  match labels with
  | [] => inr tt
  | label :: rest =>
      if len label >? 63 then inl LabelTooLong
      else if is_empty label && negb (i =? n - 1) then inl EmptyLabel
      else check_labels (i + 1) n rest
  end.

Definition _validate_labels (labels : list string) : error + unit :=
  if total_length labels >? 255 then inl NameTooLong
  else check_labels 0 (Z.of_nat (length labels)) labels.

(** A label is handed over as [bytes] or as [str]. *)
Inductive label_arg : Type :=
| Bytes (b : string)
| Str (s : string).

Fixpoint all_ascii (s : string) : bool :=
  match s with
  | EmptyString => true
  | String c rest => (ord c <? 128) && all_ascii rest
  end.

(** [label.encode('ascii')] raises on a code point above 127. *)
Definition _maybe_convert_to_binary (label : label_arg) : error + string :=
  match label with
  | Str s => if all_ascii s then inr s else inl UnicodeEncodeError
  | Bytes b => inr b
  end.

(** [[_maybe_convert_to_binary(x) for x in labels]] *)
Fixpoint convert_all (labels : list label_arg) : error + list string :=
  match labels with
  | [] => inr []
  | x :: rest =>
      match _maybe_convert_to_binary x with
      | inl e => inl e
      | inr b =>
          match convert_all rest with
          | inl e => inl e
          | inr bs => inr (b :: bs)
          end
      end
  end.

Record Name : Type := mkName { labels : list string }.

(** [Name.__init__] *)
Definition Name_init (labels_ : list label_arg) : error + Name :=
  match convert_all labels_ with
  | inl e => inl e
  | inr blabels =>
      match _validate_labels blabels with
      | inl e => inl e
      | inr _ => inr (mkName blabels)
      end
  end.

(** [bytes.lower()]: only the octets of [A]..[Z] change. *)
Definition lower_octet (c : ascii) : ascii :=
  let n := ord c in
  if (65 <=? n) && (n <=? 90) then ascii_of_N (N_of_ascii c + 32) else c.

Fixpoint lower (label : string) : string :=
  match label with
  | EmptyString => EmptyString
  | String c rest => String (lower_octet c) (lower rest)
  end.

(** [for c in ...: h += (h << 3) + c] *)
Fixpoint hash_octets (h : Z) (octets : string) : Z :=
  match octets with
  | EmptyString => h
  | String c rest => hash_octets (h + (Z.shiftl h 3 + ord c)) rest
  end.

(** [Name.__hash__] *)
Definition __hash__ (self : Name) : Z :=
  foldl (fun h label => hash_octets h (lower label)) 0 (labels self).

(** The structural invariants of a name, as the specification words them. *)
Definition labels_short (labels : list string) : Prop :=
  Forall (fun label => len label <= 63) labels.

Definition empty_only_last (labels : list string) : Prop :=
  forall j : nat,
    labels !! j = Some EmptyString ->
    Z.of_nat j = Z.of_nat (length labels) - 1.

Definition well_formed (labels : list string) : Prop :=
  labels_short labels /\ total_length labels <= 255 /\ empty_only_last labels.

(** *** The enumeration loop *)

Lemma is_empty_true (label : string) :
  is_empty label = true <-> label = EmptyString.
Proof. destruct label; cbn; split; congruence. Qed.

Lemma check_labels_ok (ls : list string) : forall i n,
  n = i + Z.of_nat (length ls) ->
  check_labels i n ls = inr tt <->
  (labels_short ls /\
   forall j : nat, ls !! j = Some EmptyString -> i + Z.of_nat j = n - 1).
Proof.
  induction ls as [|l ls IH]; intros i n Hn.
  - cbn. split; [|reflexivity]. intros _. split; [constructor|].
    intros j Hj. discriminate Hj.
  - cbn [check_labels].
    destruct (Z.gtb_spec (len l) 63) as [Hlong|Hshort].
    { split; [discriminate|]. intros [Hall _]. inversion Hall; subst. lia. }
    assert (Hn' : n = (i + 1) + Z.of_nat (length ls)).
    { cbn [length] in Hn. lia. }
    destruct (is_empty l) eqn:Hemp; cbn [andb].
    + apply is_empty_true in Hemp. subst l.
      destruct (Z.eqb_spec i (n - 1)) as [Hlast|Hmid]; cbn [negb].
      * rewrite (IH (i + 1) n Hn'). split.
        -- intros [Hall Hj]. split; [constructor; [exact Hshort|exact Hall]|].
           intros [|j] Hlk; [lia|]. cbn in Hlk. specialize (Hj j Hlk). lia.
        -- intros [Hall Hj]. inversion Hall; subst. split; [assumption|].
           intros j Hlk. specialize (Hj (S j) Hlk). lia.
      * split; [discriminate|]. intros [_ Hj].
        specialize (Hj 0%nat eq_refl). lia.
    + rewrite (IH (i + 1) n Hn'). split.
      * intros [Hall Hj]. split; [constructor; [exact Hshort|exact Hall]|].
        intros [|j] Hlk.
        -- cbn in Hlk. inversion Hlk; subst l. discriminate Hemp.
        -- cbn in Hlk. specialize (Hj j Hlk). lia.
      * intros [Hall Hj]. inversion Hall; subst. split; [assumption|].
        intros j Hlk. specialize (Hj (S j) Hlk). lia.
Qed.

Lemma check_labels_error (ls : list string) : forall i n e,
  check_labels i n ls = inl e ->
  match e with
  | LabelTooLong => Exists (fun label => 63 < len label) ls
  | EmptyLabel =>
      exists j : nat, ls !! j = Some EmptyString /\ i + Z.of_nat j <> n - 1
  | NameTooLong | UnicodeEncodeError => False
  end.
Proof.
  induction ls as [|l ls IH]; intros i n e Hc.
  - discriminate Hc.
  - cbn [check_labels] in Hc.
    destruct (Z.gtb_spec (len l) 63) as [Hlong|Hshort].
    { inversion Hc; subst e. left. lia. }
    destruct (is_empty l) eqn:Hemp; cbn [andb] in Hc.
    + destruct (Z.eqb_spec i (n - 1)) as [Hlast|Hmid]; cbn [negb] in Hc.
      * specialize (IH _ _ _ Hc). destruct e; try exact IH.
        -- right. exact IH.
        -- destruct IH as [j [Hj Hne]]. exists (S j). split; [exact Hj|lia].
      * inversion Hc; subst e. apply is_empty_true in Hemp. subst l.
        exists 0%nat. split; [reflexivity|lia].
    + specialize (IH _ _ _ Hc). destruct e; try exact IH.
      * right. exact IH.
      * destruct IH as [j [Hj Hne]]. exists (S j). split; [exact Hj|lia].
Qed.

Lemma validate_ok (ls : list string) :
  _validate_labels ls = inr tt <-> well_formed ls.
Proof.
  unfold _validate_labels, well_formed, empty_only_last.
  destruct (Z.gtb_spec (total_length ls) 255) as [Hbig|Hfit].
  - split; [discriminate|]. intros (_ & Htot & _). lia.
  - rewrite (check_labels_ok ls 0 (Z.of_nat (length ls))) by lia. split.
    + intros [Hall Hj]. split; [exact Hall|]. split; [lia|].
      intros j Hlk. specialize (Hj j Hlk). lia.
    + intros (Hall & _ & Hj). split; [exact Hall|].
      intros j Hlk. specialize (Hj j Hlk). lia.
Qed.

Lemma validate_error (ls : list string) (e : error) :
  _validate_labels ls = inl e ->
  match e with
  | NameTooLong => 255 < total_length ls
  | LabelTooLong => Exists (fun label => 63 < len label) ls
  | EmptyLabel =>
      exists j : nat, ls !! j = Some EmptyString /\
                      Z.of_nat j <> Z.of_nat (length ls) - 1
  | UnicodeEncodeError => False
  end.
Proof.
  unfold _validate_labels.
  destruct (Z.gtb_spec (total_length ls) 255) as [Hbig|Hfit].
  - intros He. inversion He; subst e. lia.
  - intros He. apply check_labels_error in He.
    destruct e; try exact He; contradiction.
Qed.

Lemma Name_init_labels (args : list label_arg) (n : Name) :
  Name_init args = inr n -> _validate_labels (labels n) = inr tt.
Proof.
  unfold Name_init. destruct (convert_all args) as [e|bl]; [discriminate|].
  destruct (_validate_labels bl) as [e|[]] eqn:Hv; [discriminate|].
  intros Hn. inversion Hn; subst n. exact Hv.
Qed.

(** When exactly one invariant is broken, the exception raised is the one
    that belongs to it. *)
Lemma validate_raises (ls : list string) :
  ~ well_formed ls -> exists e, _validate_labels ls = inl e.
Proof.
  intros Hbad. destruct (_validate_labels ls) as [e|[]] eqn:Hv.
  - exists e. reflexivity.
  - apply validate_ok in Hv. contradiction.
Qed.

Lemma Exists_long_not_short (ls : list string) :
  Exists (fun label => 63 < len label) ls -> ~ labels_short ls.
Proof.
  intros Hex Hall. unfold labels_short in Hall.
  rewrite Forall_forall in Hall. apply Exists_exists in Hex as [l [Hin Hl]].
  specialize (Hall l Hin). lia.
Qed.

Lemma validate_single_fault (ls : list string) :
  (~ labels_short ls -> total_length ls <= 255 -> empty_only_last ls ->
     _validate_labels ls = inl LabelTooLong) /\
  (labels_short ls -> 255 < total_length ls -> empty_only_last ls ->
     _validate_labels ls = inl NameTooLong) /\
  (labels_short ls -> total_length ls <= 255 -> ~ empty_only_last ls ->
     _validate_labels ls = inl EmptyLabel).
Proof.
  split; [|split].
  - intros Hs Ht He.
    destruct (validate_raises ls) as [e Hv].
    { intros (Hs' & _). contradiction. }
    pose proof (validate_error ls e Hv) as Herr.
    destruct e; [lia|exact Hv| |contradiction].
    destruct Herr as [j [Hj Hne]]. specialize (He j Hj). lia.
  - intros Hs Ht He.
    destruct (validate_raises ls) as [e Hv].
    { intros (_ & Ht' & _). lia. }
    pose proof (validate_error ls e Hv) as Herr.
    destruct e; [exact Hv| | |contradiction].
    + apply Exists_long_not_short in Herr. contradiction.
    + destruct Herr as [j [Hj Hne]]. specialize (He j Hj). lia.
  - intros Hs Ht He.
    destruct (validate_raises ls) as [e Hv].
    { intros (_ & _ & He'). contradiction. }
    pose proof (validate_error ls e Hv) as Herr.
    destruct e; [lia| |exact Hv|contradiction].
    apply Exists_long_not_short in Herr. contradiction.
Qed.

(** *** The hash *)

Lemma hash_by_lowered (ls : list string) (h : Z) :
  foldl (fun h label => hash_octets h (lower label)) h ls =
  foldl hash_octets h (map lower ls).
Proof.
  revert h. induction ls as [|l ls IH]; intros h; [reflexivity|].
  cbn [foldl map]. apply IH.
Qed.

(** C9: a name that [Name.__init__] returns has every label of at most 63
    octets, a total encoded length (label lengths plus one octet each) of
    at most 255, and an empty label in the last position only; labels with
    these three properties are accepted; when validation raises, the
    exception names an invariant that is broken ([NameTooLong]: the total
    exceeds 255; [LabelTooLong]: some label exceeds 63; [EmptyLabel]: an
    empty label is not last), and it is that invariant's own exception
    when no other invariant is broken (the total is tested first, so a
    name that is too long raises [NameTooLong] whatever its labels); and
    two names whose labels agree after ASCII lowercasing have the same
    hash. *)
Theorem name_invariants_and_hash :
  (forall args n, Name_init args = inr n -> well_formed (labels n)) /\
  (forall ls, well_formed ls ->
     Name_init (map Bytes ls) = inr (mkName ls)) /\
  (forall ls, _validate_labels ls = inl LabelTooLong ->
     Exists (fun label => 63 < len label) ls) /\
  (forall ls, _validate_labels ls = inl NameTooLong ->
     255 < total_length ls) /\
  (forall ls, _validate_labels ls = inl EmptyLabel ->
     exists j : nat, ls !! j = Some EmptyString /\
                     Z.of_nat j <> Z.of_nat (length ls) - 1) /\
  (forall ls, 255 < total_length ls ->
     _validate_labels ls = inl NameTooLong) /\
  (forall ls,
     (~ labels_short ls -> total_length ls <= 255 -> empty_only_last ls ->
        _validate_labels ls = inl LabelTooLong) /\
     (labels_short ls -> 255 < total_length ls -> empty_only_last ls ->
        _validate_labels ls = inl NameTooLong) /\
     (labels_short ls -> total_length ls <= 255 -> ~ empty_only_last ls ->
        _validate_labels ls = inl EmptyLabel)) /\
  (forall n1 n2, map lower (labels n1) = map lower (labels n2) ->
     __hash__ n1 = __hash__ n2).
Proof.
  split; [|split; [|split; [|split; [|split; [|split; [|split]]]]]].
  - intros args n Hn. apply validate_ok. exact (Name_init_labels args n Hn).
  - intros ls Hwf. unfold Name_init.
    assert (Hconv : forall bs, convert_all (map Bytes bs) = inr bs).
    { induction bs as [|b bs IH]; [reflexivity|].
      cbn [map convert_all _maybe_convert_to_binary]. rewrite IH.
      reflexivity. }
    rewrite Hconv. apply validate_ok in Hwf. rewrite Hwf. reflexivity.
  - intros ls He. exact (validate_error ls LabelTooLong He).
  - intros ls He. exact (validate_error ls NameTooLong He).
  - intros ls He. exact (validate_error ls EmptyLabel He).
  - intros ls Hbig. unfold _validate_labels.
    destruct (Z.gtb_spec (total_length ls) 255); [reflexivity|lia].
  - exact validate_single_fault.
  - intros n1 n2 Hlow. unfold __hash__.
    rewrite !hash_by_lowered, Hlow. reflexivity.
Qed.

(** The name [www.example.com.], and the same name in upper case. *)
Definition www_example_com : list label_arg :=
  [Bytes "www"; Bytes "example"; Bytes "com"; Bytes ""].

Lemma name_invariants_and_hash_witness :
  well_formed ["www"; "example"; "com"; ""]%string /\
  __hash__ (mkName ["WWW"; "Example"; "COM"; ""]%string) =
  __hash__ (mkName ["www"; "example"; "com"; ""]%string).
Proof.
  split.
  - apply (proj1 name_invariants_and_hash www_example_com
             (mkName ["www"; "example"; "com"; ""]%string)).
    reflexivity.
  - apply (proj2 (proj2 (proj2 (proj2 (proj2 (proj2 (proj2
             name_invariants_and_hash))))))).
    reflexivity.
Defined.

(** *** Further methods of [Name], and what the invariants give *)

(** [Name.is_absolute]: [len(self.labels) > 0 and self.labels[-1] == b''] *)
Definition is_absolute (self : Name) : bool :=
  match last (labels self) with
  | Some label => is_empty label
  | None => false
  end.

(** [Name.__len__] *)
Definition __len__ (self : Name) : Z := Z.of_nat (length (labels self)).

(** [Name.__copy__]: [Name(self.labels)] *)
Definition __copy__ (self : Name) : error + Name :=
  Name_init (map Bytes (labels self)).

(** The octets of a name, one label after the other. *)
Definition concat_labels (ls : list string) : string :=
  foldr String.append EmptyString ls.

Lemma convert_all_bytes (bs : list string) :
  convert_all (map Bytes bs) = inr bs.
Proof.
  induction bs as [|b bs IH]; [reflexivity|].
  cbn [map convert_all _maybe_convert_to_binary]. rewrite IH. reflexivity.
Qed.

Lemma len_nonneg (label : string) : 0 <= len label.
Proof. unfold len. lia. Qed.

Lemma len_nonempty (label : string) : label <> EmptyString -> 1 <= len label.
Proof. destruct label; [congruence|]. unfold len. cbn. lia. Qed.

Lemma total_length_nonneg (ls : list string) : 0 <= total_length ls.
Proof.
  induction ls as [|l ls IH]; cbn; [lia|].
  pose proof (len_nonneg l). unfold total_length in IH. lia.
Qed.

Lemma empty_only_last_tail (l : string) (ls : list string) :
  empty_only_last (l :: ls) -> empty_only_last ls.
Proof.
  intros He j Hj. specialize (He (S j) Hj). cbn [length] in He. lia.
Qed.

Lemma total_length_lower (ls : list string) :
  empty_only_last ls -> 2 * Z.of_nat (length ls) - 1 <= total_length ls.
Proof.
  induction ls as [|l ls IH]; intros He; [cbn; lia|].
  specialize (IH (empty_only_last_tail l ls He)).
  cbn [total_length foldr length]. fold (total_length ls).
  destruct ls as [|l' ls].
  - pose proof (len_nonneg l). cbn. lia.
  - assert (Hl : l <> EmptyString).
    { intros ->. specialize (He 0%nat eq_refl). cbn [length] in He. lia. }
    pose proof (len_nonempty l Hl). cbn [length] in *. lia.
Qed.

(** A name that [Name.__init__] returns has at most 128 labels, and each
    of its labels but the last has between 1 and 63 octets. *)
Theorem name_has_at_most_128_labels (args : list label_arg) (n : Name) :
  Name_init args = inr n ->
  __len__ n <= 128 /\
  (forall (j : nat) (label : string),
     labels n !! j = Some label ->
     Z.of_nat j < __len__ n - 1 ->
     1 <= len label <= 63).
Proof.
  intros Hn. apply Name_init_labels in Hn. apply validate_ok in Hn.
  destruct Hn as (Hshort & Htotal & Hempty). unfold __len__. split.
  - pose proof (total_length_lower (labels n) Hempty). lia.
  - intros j label Hj Hlast. split.
    + apply len_nonempty. intros ->. specialize (Hempty j Hj). lia.
    + unfold labels_short in Hshort. rewrite Forall_forall in Hshort.
      apply Hshort. eapply list_elem_of_lookup_2. exact Hj.
Qed.

(** A name that [Name.__init__] returns is absolute exactly when one of
    its labels is empty. *)
Theorem absolute_iff_has_empty_label (args : list label_arg) (n : Name) :
  Name_init args = inr n ->
  is_absolute n = true <-> In EmptyString (labels n).
Proof.
  intros Hn. apply Name_init_labels in Hn. apply validate_ok in Hn.
  destruct Hn as (_ & _ & Hempty). unfold is_absolute. split.
  - destruct (last (labels n)) as [label|] eqn:Hlast; [|discriminate].
    intros Hl. apply is_empty_true in Hl. subst label.
    apply last_Some in Hlast as [l' ->]. apply in_or_app. right. left.
    reflexivity.
  - intros Hin. apply list_elem_of_In, list_elem_of_lookup in Hin as [j Hj].
    specialize (Hempty j Hj). rewrite last_lookup.
    replace (Nat.pred (length (labels n))) with j by lia.
    rewrite Hj. reflexivity.
Qed.

Lemma drop_well_formed (ls : list string) (k : nat) :
  well_formed ls -> well_formed (drop k ls).
Proof.
  intros (Hshort & Htotal & Hempty). split; [|split].
  - unfold labels_short in *. apply Forall_drop. exact Hshort.
  - assert (Hle : total_length (drop k ls) <= total_length ls).
    { clear. revert k. induction ls as [|l ls IH]; intros [|k]; cbn; try lia.
      specialize (IH k). pose proof (len_nonneg l).
      unfold total_length in *. cbn in *. lia. }
    lia.
  - intros j Hj. rewrite lookup_drop in Hj. specialize (Hempty _ Hj).
    rewrite length_drop. lia.
Qed.

(** The labels of a name that [Name.__init__] returned, with any number
    of leading labels dropped, make a name again: [Name(self.labels[k:])]
    does not raise; for [k = 0] this is [__copy__], which returns a name
    with the same labels. *)
Theorem name_suffix_is_a_name (args : list label_arg) (n : Name) (k : nat) :
  Name_init args = inr n ->
  Name_init (map Bytes (drop k (labels n))) = inr (mkName (drop k (labels n)))
  /\ __copy__ n = inr n.
Proof.
  intros Hn. apply Name_init_labels in Hn. apply validate_ok in Hn.
  assert (Hk : forall k, Name_init (map Bytes (drop k (labels n))) =
                         inr (mkName (drop k (labels n)))).
  { intros k'. unfold Name_init. rewrite convert_all_bytes.
    pose proof (drop_well_formed (labels n) k' Hn) as Hwf.
    apply validate_ok in Hwf. rewrite Hwf. reflexivity. }
  split; [apply Hk|]. unfold __copy__. specialize (Hk 0%nat).
  rewrite drop_0 in Hk. rewrite Hk. destruct n; reflexivity.
Qed.

Lemma lower_append (a b : string) :
  lower (String.append a b) = String.append (lower a) (lower b).
Proof.
  induction a as [|c a IH]; [reflexivity|].
  change (String.append (String c a) b) with (String c (String.append a b)).
  cbn [lower]. rewrite IH. reflexivity.
Qed.

Lemma hash_octets_append (a b : string) : forall h,
  hash_octets h (String.append a b) = hash_octets (hash_octets h a) b.
Proof.
  induction a as [|c a IH]; intros h; [reflexivity|].
  change (String.append (String c a) b) with (String c (String.append a b)).
  cbn [hash_octets]. apply IH.
Qed.

Lemma hash_of_concat (ls : list string) : forall h,
  foldl (fun h label => hash_octets h (lower label)) h ls =
  hash_octets h (lower (concat_labels ls)).
Proof.
  induction ls as [|l ls IH]; intros h; [reflexivity|].
  cbn [foldl concat_labels foldr]. fold (concat_labels ls).
  rewrite IH, lower_append, hash_octets_append. reflexivity.
Qed.

Lemma hash_octets_nonneg (s : string) : forall h,
  0 <= h -> 0 <= hash_octets h s.
Proof.
  induction s as [|c s IH]; intros h Hh; [exact Hh|].
  cbn [hash_octets]. apply IH. rewrite Z.shiftl_mul_pow2 by lia.
  unfold ord. lia.
Qed.

(** The hash of a name is a function of its octets, lowercased and taken
    one label after the other: where the labels are cut does not enter
    into it, so names that differ only in their label boundaries (or in
    ASCII case) have the same hash; and the hash is never negative. *)
Theorem hash_ignores_label_boundaries (n1 n2 : Name) :
  lower (concat_labels (labels n1)) = lower (concat_labels (labels n2)) ->
  __hash__ n1 = __hash__ n2 /\ 0 <= __hash__ n1.
Proof.
  intros Heq. unfold __hash__. rewrite !hash_of_concat, Heq.
  split; [reflexivity|]. apply hash_octets_nonneg. lia.
Qed.

(** *** [_escapify] *)
















Lemma name_has_at_most_128_labels_witness :
  __len__ (mkName ["www"; "example"; "com"; ""]%string) <= 128 /\
  (forall (j : nat) (label : string),
     labels (mkName ["www"; "example"; "com"; ""]%string) !! j = Some label ->
     Z.of_nat j < __len__ (mkName ["www"; "example"; "com"; ""]%string) - 1 ->
     1 <= len label <= 63).
Proof.
  apply (name_has_at_most_128_labels www_example_com). reflexivity.
Defined.

Lemma absolute_iff_has_empty_label_witness :
  is_absolute (mkName ["www"; "example"; "com"; ""]%string) = true <->
  In EmptyString (labels (mkName ["www"; "example"; "com"; ""]%string)).
Proof.
  apply (absolute_iff_has_empty_label www_example_com). reflexivity.
Defined.

Lemma name_suffix_is_a_name_witness :
  Name_init (map Bytes
    (drop 1 (labels (mkName ["www"; "example"; "com"; ""]%string)))) =
  inr (mkName (drop 1 (labels (mkName ["www"; "example"; "com"; ""]%string))))
  /\ __copy__ (mkName ["www"; "example"; "com"; ""]%string) =
     inr (mkName ["www"; "example"; "com"; ""]%string).
Proof.
  apply (name_suffix_is_a_name www_example_com). reflexivity.
Defined.

Lemma hash_ignores_label_boundaries_witness :
  __hash__ (mkName ["ab"; "c"]%string) = __hash__ (mkName ["A"; "BC"]%string)
  /\ 0 <= __hash__ (mkName ["ab"; "c"]%string).
Proof.
  apply (hash_ignores_label_boundaries (mkName ["ab"; "c"]%string)
           (mkName ["A"; "BC"]%string)).
  reflexivity.
Defined.


End name.

(* ===================================================================== *)
(** ** dns/resolver.py *)
(* ===================================================================== *)

Module resolver.
Local Open Scope Z_scope.

(** [dns.rcode.NOERROR] and [dns.rcode.NXDOMAIN] *)
Definition NOERROR : Z := 0.
Definition NXDOMAIN_rcode : Z := 3.

(** A response message, as far as the resolver looks into it: its rcode,
    its header flags, and the rest of it. *)
Record Response : Type := mkResponse {
  rcode : Z;
  flags : Z;
  body : string
}.

Record Nameserver : Type := mkNameserver {
  address : string;
  port : Z
}.

Record CacheStatistics : Type := mkCacheStatistics {
  hits : Z;
  misses : Z
}.

Section Caches.
(** [dns.name.Name] and the records of an RRset are used here through
    equality only.  Wall-clock readings ([time.time()]) are numbers of
    clock ticks. *)
Context {Name : Type} `{Countable Name}.
Context {Rdata : Type}.

(** [CacheKey = Tuple[Name, RdataType, RdataClass]] *)
Definition CacheKey : Type := Name * Z * Z.

Record Answer : Type := mkAnswer {
  qname : Name;
  rdtype : Z;
  rdclass : Z;
  response : Response;
  nameserver : option string;
  canonical_name : Name;
  rrset : option (list Rdata);
  expiration : Z
}.

(** [Answer.__len__], which is also the truth value of an answer. *)
Definition Answer_len (a : Answer) : Z :=
  match rrset a with
  | Some rs => Z.of_nat (length rs)
  | None => 0
  end.

(** *** The simple cache *)

Record Cache : Type := mkCache {
  statistics : CacheStatistics;
  data : gmap CacheKey Answer;
  cleaning_interval : Z;
  next_cleaning : Z
}.

(** [Cache.__init__], with the reading of the clock it takes. *)
Definition Cache_init (cleaning_interval_ now : Z) : Cache :=
  mkCache (mkCacheStatistics 0 0) ∅ cleaning_interval_
          (now + cleaning_interval_).

Definition with_data (d : gmap CacheKey Answer) (self : Cache) : Cache :=
  mkCache (statistics self) d (cleaning_interval self) (next_cleaning self).

Definition with_next_cleaning (t : Z) (self : Cache) : Cache :=
  mkCache (statistics self) (data self) (cleaning_interval self) t.

Definition count_hit (self : Cache) : Cache :=
  mkCache (mkCacheStatistics (hits (statistics self) + 1)
                             (misses (statistics self)))
          (data self) (cleaning_interval self) (next_cleaning self).

Definition count_miss (self : Cache) : Cache :=
  mkCache (mkCacheStatistics (hits (statistics self))
                             (misses (statistics self) + 1))
          (data self) (cleaning_interval self) (next_cleaning self).

(** [[k for k, v in self.data.items() if v.expiration <= now]] *)
Definition keys_to_delete (now : Z) (d : gmap CacheKey Answer)
  : list CacheKey :=
  map fst (filter (fun kv => expiration (snd kv) <= now) (map_to_list d)).

(** [now] is the reading of the clock taken by [_maybe_clean]. *)
Definition _maybe_clean (now : Z) (self : Cache) : Cache :=
  if next_cleaning self <=? now then
    let d := foldl (fun d k => delete k d) (data self)
                   (keys_to_delete now (data self)) in
    with_next_cleaning (now + cleaning_interval self) (with_data d self)
  else self.

(** [Cache.get]: [now1] is the reading taken by [_maybe_clean], [now2] the
    one taken by the expiry test (read only when the key is present). *)
Definition get (key : CacheKey) (now1 now2 : Z) (self : Cache)
  : option Answer * Cache :=
  let self1 := _maybe_clean now1 self in
  match data self1 !! key with
  | Some answer =>
      if expiration answer >? now2
      then (Some answer, count_hit self1)
      else (None, count_miss self1)
  | None => (None, count_miss self1)
  end.

(** [Cache.put]: [now] is the reading taken by [_maybe_clean]. *)
Definition put (key : CacheKey) (value : Answer) (now : Z) (self : Cache)
  : Cache :=
  let self1 := _maybe_clean now self in
  with_data (<[key := value]> (data self1)) self1.

(** *** The LRU cache *)

(** A node carries its value and its hit count; its key is the key under
    which [data] holds it, and its place in the circular list is its place
    in [lru_order], which lists the keys from [sentinel.next] on (most
    recently used first). *)
Record LRUCacheNode : Type := mkLRUCacheNode {
  value : Answer;
  node_hits : Z
}.

Record LRUCache : Type := mkLRUCache {
  lru_statistics : CacheStatistics;
  lru_data : gmap CacheKey LRUCacheNode;
  lru_order : list CacheKey;
  max_size : Z
}.

Definition lru_with (d : gmap CacheKey LRUCacheNode) (o : list CacheKey)
  (self : LRUCache) : LRUCache :=
  mkLRUCache (lru_statistics self) d o (max_size self).

Definition lru_count_hit (self : LRUCache) : LRUCache :=
  mkLRUCache (mkCacheStatistics (hits (lru_statistics self) + 1)
                                (misses (lru_statistics self)))
             (lru_data self) (lru_order self) (max_size self).

Definition lru_count_miss (self : LRUCache) : LRUCache :=
  mkLRUCache (mkCacheStatistics (hits (lru_statistics self))
                                (misses (lru_statistics self) + 1))
             (lru_data self) (lru_order self) (max_size self).

Definition without (key : CacheKey) (o : list CacheKey) : list CacheKey :=
  filter (fun k => k <> key) o.

(** Modelled from the spec: [LRUCache._move_to_front] is called but not
    defined in the sources; a hit or a replacing put "moves the node to
    the front" of the list. *)
Definition _move_to_front (key : CacheKey) (self : LRUCache) : LRUCache :=
  lru_with (lru_data self) (key :: without key (lru_order self)) self.

(** Modelled from the spec: [LRUCache._add_front] is called but not
    defined in the sources; a new node is linked in at the front. *)
Definition _add_front (key : CacheKey) (self : LRUCache) : LRUCache :=
  lru_with (lru_data self) (key :: lru_order self) self.

(** Modelled from the spec: [LRUCache._delete_node] is called but not
    defined in the sources; "on expiry the node is evicted", from the list
    and from the map. *)
Definition _delete_node (key : CacheKey) (self : LRUCache) : LRUCache :=
  lru_with (delete key (lru_data self)) (without key (lru_order self)) self.

(** Modelled from the spec: [LRUCache._remove_least_recently_used] is
    called but not defined in the sources; it evicts the tail node of the
    list.  On an empty list there is nothing to evict. *)
Definition _remove_least_recently_used (self : LRUCache) : LRUCache :=
  match last (lru_order self) with
  | Some key => _delete_node key self
  | None => self
  end.

(** [LRUCache.get]; [now] is the reading of the clock taken by the expiry
    test (read only when the key is present). *)
Definition lru_get (key : CacheKey) (now : Z) (self : LRUCache)
  : option Answer * LRUCache :=
  match lru_data self !! key with
  | None => (None, lru_count_miss self)
  | Some node =>
      if expiration (value node) <=? now
      then (None, lru_count_miss (_delete_node key self))
      else
        let node' := mkLRUCacheNode (value node) (node_hits node + 1) in
        let self1 := lru_with (<[key := node']> (lru_data self))
                              (lru_order self) self in
        (Some (value node), lru_count_hit (_move_to_front key self1))
  end.

Definition get_hits_for_key (key : CacheKey) (self : LRUCache) : Z :=
  match lru_data self !! key with
  | None => 0
  | Some node => node_hits node
  end.

(** [while len(self.data) >= self.max_size:
       self._remove_least_recently_used()], with a bound on the number of
    turns; [None] when the bound is reached. *)
Fixpoint evict (fuel : nat) (self : LRUCache) : option LRUCache :=
  if Z.of_nat (size (lru_data self)) >=? max_size self then
    match fuel with
    | O => None
    | S fuel' => evict fuel' (_remove_least_recently_used self)
    end
  else Some self.

(** [LRUCache.put] *)
Definition lru_put (fuel : nat) (key : CacheKey) (value_ : Answer)
  (self : LRUCache) : option LRUCache :=
  match lru_data self !! key with
  | Some node =>
      let node' := mkLRUCacheNode value_ (node_hits node + 1) in
      let self1 := lru_with (<[key := node']> (lru_data self))
                            (lru_order self) self in
      Some (_move_to_front key self1)
  | None =>
      match evict fuel self with
      | None => None
      | Some self1 =>
          let node := mkLRUCacheNode value_ 0 in
          let self2 := _add_front key self1 in
          Some (lru_with (<[key := node]> (lru_data self2))
                         (lru_order self2) self2)
      end
  end.

(** *** Facts about the simple cache *)

Lemma delete_all_lookup (ks : list CacheKey) (d : gmap CacheKey Answer)
  (k : CacheKey) :
  foldl (fun d k => delete k d) d ks !! k =
  if bool_decide (k ∈ ks) then None else d !! k.
Proof.
  revert d. induction ks as [|k' ks IH]; intros d.
  - cbn [foldl]. rewrite bool_decide_eq_false_2; [reflexivity|].
    apply not_elem_of_nil.
  - cbn [foldl]. rewrite IH.
    destruct (decide (k ∈ ks)) as [Hin|Hnin].
    + rewrite !bool_decide_eq_true_2; [reflexivity| |exact Hin].
      right. exact Hin.
    + rewrite (bool_decide_eq_false_2 _ Hnin).
      destruct (decide (k = k')) as [->|Hne].
      * rewrite bool_decide_eq_true_2 by left. apply lookup_delete_eq.
      * rewrite bool_decide_eq_false_2.
        -- apply lookup_delete_ne. congruence.
        -- intros Hin. apply elem_of_cons in Hin as [?|?]; contradiction.
Qed.

Lemma keys_to_delete_spec (now : Z) (d : gmap CacheKey Answer)
  (k : CacheKey) :
  k ∈ keys_to_delete now d <->
  exists a, d !! k = Some a /\ expiration a <= now.
Proof.
  unfold keys_to_delete. rewrite list_elem_of_fmap. split.
  - intros [[k' a] [-> Hin]]. apply list_elem_of_filter in Hin as [Hexp Hin].
    apply elem_of_map_to_list in Hin. exists a. split; assumption.
  - intros [a [Hk Hexp]]. exists (k, a). split; [reflexivity|].
    apply list_elem_of_filter. split; [exact Hexp|].
    apply elem_of_map_to_list. exact Hk.
Qed.

Lemma maybe_clean_lookup_fresh (now : Z) (self : Cache) (k : CacheKey)
  (a : Answer) :
  data self !! k = Some a -> now < expiration a ->
  data (_maybe_clean now self) !! k = Some a.
Proof.
  intros Hk Hfresh. unfold _maybe_clean.
  destruct (next_cleaning self <=? now); [|exact Hk].
  cbn [data with_next_cleaning with_data]. rewrite delete_all_lookup.
  rewrite bool_decide_eq_false_2; [exact Hk|].
  intros Hin. apply keys_to_delete_spec in Hin as [a' [Hk' Hexp]].
  rewrite Hk in Hk'. inversion Hk'; subst a'. lia.
Qed.

Lemma maybe_clean_lookup_sub (now : Z) (self : Cache) (k : CacheKey)
  (a : Answer) :
  data (_maybe_clean now self) !! k = Some a -> data self !! k = Some a.
Proof.
  unfold _maybe_clean.
  destruct (next_cleaning self <=? now); [|tauto].
  cbn [data with_next_cleaning with_data]. rewrite delete_all_lookup.
  destruct (bool_decide _); [discriminate|tauto].
Qed.

Lemma maybe_clean_statistics (now : Z) (self : Cache) :
  statistics (_maybe_clean now self) = statistics self.
Proof.
  unfold _maybe_clean. destruct (next_cleaning self <=? now); reflexivity.
Qed.

Lemma put_lookup (key : CacheKey) (a : Answer) (now : Z) (self : Cache) :
  data (put key a now self) !! key = Some a.
Proof. unfold put. cbn [data with_data]. apply lookup_insert_eq. Qed.

Lemma put_statistics (key : CacheKey) (a : Answer) (now : Z) (self : Cache) :
  statistics (put key a now self) = statistics self.
Proof. unfold put. cbn [statistics with_data]. apply maybe_clean_statistics. Qed.

Lemma get_fresh (key : CacheKey) (a : Answer) (now1 now2 : Z) (self : Cache) :
  data self !! key = Some a ->
  now1 < expiration a -> now2 < expiration a ->
  get key now1 now2 self = (Some a, count_hit (_maybe_clean now1 self)).
Proof.
  intros Hk H1 H2. unfold get.
  rewrite (maybe_clean_lookup_fresh now1 self key a Hk H1).
  destruct (Z.gtb_spec (expiration a) now2); [reflexivity|lia].
Qed.

Lemma get_expired (key : CacheKey) (a : Answer) (now1 now2 : Z)
  (self : Cache) :
  data self !! key = Some a ->
  expiration a <= now2 ->
  get key now1 now2 self = (None, count_miss (_maybe_clean now1 self)).
Proof.
  intros Hk H2. unfold get.
  destruct (data (_maybe_clean now1 self) !! key) as [a'|] eqn:Hk';
    [|reflexivity].
  apply maybe_clean_lookup_sub in Hk'. rewrite Hk in Hk'.
  inversion Hk'; subst a'.
  destruct (Z.gtb_spec (expiration a) now2); [lia|reflexivity].
Qed.

Lemma get_missing (key : CacheKey) (now1 now2 : Z) (self : Cache) :
  data self !! key = None ->
  get key now1 now2 self = (None, count_miss (_maybe_clean now1 self)).
Proof.
  intros Hk. unfold get.
  destruct (data (_maybe_clean now1 self) !! key) as [a'|] eqn:Hk';
    [|reflexivity].
  apply maybe_clean_lookup_sub in Hk'. rewrite Hk in Hk'. discriminate Hk'.
Qed.

(** C5: after [put(k, a)], a [get(k)] whose clock readings are strictly
    before [a.expiration] returns [a] and adds one to [hits] (and nothing
    to [misses]); a [get(k)] whose expiry test reads the clock at or
    after [a.expiration] returns [None] and adds one to [misses] (and
    nothing to [hits]); and a [get] on a key that is not in the cache
    returns [None], counted as a miss: it is a total function and raises
    nothing. *)
Theorem cache_put_get (self : Cache) (k : CacheKey) (a : Answer)
  (t_put now1 now2 : Z) :
  let cache := put k a t_put self in
  (now1 < expiration a -> now2 < expiration a ->
     fst (get k now1 now2 cache) = Some a /\
     hits (statistics (snd (get k now1 now2 cache))) =
       hits (statistics cache) + 1 /\
     misses (statistics (snd (get k now1 now2 cache))) =
       misses (statistics cache)) /\
  (expiration a <= now2 ->
     fst (get k now1 now2 cache) = None /\
     misses (statistics (snd (get k now1 now2 cache))) =
       misses (statistics cache) + 1 /\
     hits (statistics (snd (get k now1 now2 cache))) =
       hits (statistics cache)) /\
  (forall (other : Cache) (k' : CacheKey),
     data other !! k' = None ->
     fst (get k' now1 now2 other) = None /\
     misses (statistics (snd (get k' now1 now2 other))) =
       misses (statistics other) + 1 /\
     hits (statistics (snd (get k' now1 now2 other))) =
       hits (statistics other)).
Proof.
  intros cache. pose proof (put_lookup k a t_put self) as Hk.
  fold cache in Hk. split; [|split].
  - intros H1 H2. rewrite (get_fresh k a now1 now2 cache Hk H1 H2).
    cbn [fst snd count_hit statistics hits misses].
    rewrite maybe_clean_statistics. auto.
  - intros H2. rewrite (get_expired k a now1 now2 cache Hk H2).
    cbn [fst snd count_miss statistics hits misses].
    rewrite maybe_clean_statistics. auto.
  - intros other k' Hk'. rewrite (get_missing k' now1 now2 other Hk').
    cbn [fst snd count_miss statistics hits misses].
    rewrite maybe_clean_statistics. auto.
Qed.

(** *** Facts about the LRU cache *)

(** C10: a [put] on a key that is already in the LRU cache returns (with
    any bound on the eviction loop, which it does not enter), stores the
    new value, moves the key to the front of the list, and adds one to the
    node's hit count, so that [get_hits_for_key] is one more than before
    although no [get] took place. *)
Theorem lru_put_existing_counts_hit (fuel : nat) (self : LRUCache)
  (key : CacheKey) (value_ : Answer) (node : LRUCacheNode) :
  lru_data self !! key = Some node ->
  exists self',
    lru_put fuel key value_ self = Some self' /\
    lru_data self' !! key =
      Some (mkLRUCacheNode value_ (node_hits node + 1)) /\
    get_hits_for_key key self' = get_hits_for_key key self + 1 /\
    head (lru_order self') = Some key /\
    lru_statistics self' = lru_statistics self.
Proof.
  intros Hk. unfold lru_put. rewrite Hk. eexists. split; [reflexivity|].
  unfold get_hits_for_key.
  cbn [_move_to_front lru_with lru_data lru_order lru_statistics head].
  rewrite lookup_insert_eq, Hk. cbn [node_hits]. auto.
Qed.

(** *** Sweeps, overwriting and flushing *)

(** [Cache.flush]; [now] is its reading of the clock. *)
Definition flush (key : option CacheKey) (now : Z) (self : Cache) : Cache :=
  let d := match key with
           | Some k => delete k (data self)
           | None => ∅
           end in
  with_next_cleaning (now + cleaning_interval self) (with_data d self).

Lemma maybe_clean_lookup (now : Z) (self : Cache) (k : CacheKey) :
  data (_maybe_clean now self) !! k =
  if next_cleaning self <=? now then
    match data self !! k with
    | Some a => if expiration a <=? now then None else Some a
    | None => None
    end
  else data self !! k.
Proof.
  unfold _maybe_clean. destruct (next_cleaning self <=? now); [|reflexivity].
  cbn [data with_next_cleaning with_data]. rewrite delete_all_lookup.
  destruct (data self !! k) as [a|] eqn:Hk.
  - destruct (Z.leb_spec (expiration a) now) as [Hexp|Hfresh].
    + rewrite bool_decide_eq_true_2; [reflexivity|].
      apply keys_to_delete_spec. exists a. split; assumption.
    + rewrite bool_decide_eq_false_2; [reflexivity|].
      intros Hin. apply keys_to_delete_spec in Hin as [a' [Hk' Hexp]].
      rewrite Hk in Hk'. inversion Hk'; subst. lia.
  - destruct (bool_decide _); reflexivity.
Qed.

(** A sweep that is due ([next_cleaning <= now]) removes exactly the
    entries that have expired at [now], keeps every other entry as it is,
    and sets the next sweep one cleaning interval after [now]; a sweep
    that is not due changes nothing.  The statistics are never touched. *)
Theorem sweep_removes_exactly_expired (self : Cache) (now : Z) :
  (next_cleaning self <= now ->
     (forall k a, data (_maybe_clean now self) !! k = Some a <->
                  data self !! k = Some a /\ now < expiration a) /\
     next_cleaning (_maybe_clean now self) = now + cleaning_interval self) /\
  (now < next_cleaning self -> _maybe_clean now self = self) /\
  statistics (_maybe_clean now self) = statistics self.
Proof.
  split; [|split].
  - intros Hdue. split.
    + intros k a. rewrite maybe_clean_lookup.
      destruct (Z.leb_spec (next_cleaning self) now); [|lia].
      destruct (data self !! k) as [a'|]; [|split; [discriminate|]].
      * destruct (Z.leb_spec (expiration a') now).
        -- split; [discriminate|]. intros [Ha Hf]. inversion Ha; subst. lia.
        -- split.
           ++ intros Ha. inversion Ha; subst. split; [reflexivity|lia].
           ++ intros [Ha _]. exact Ha.
      * intros [Ha _]. discriminate Ha.
    + unfold _maybe_clean.
      destruct (Z.leb_spec (next_cleaning self) now); [reflexivity|lia].
  - intros Hnot. unfold _maybe_clean.
    destruct (Z.leb_spec (next_cleaning self) now); [lia|reflexivity].
  - apply maybe_clean_statistics.
Qed.

(** Every [get] is counted once, as a hit or as a miss; what it returns
    is an answer that was stored under the key and has not expired at the
    time of the expiry test; and it adds no entry to the cache. *)
Theorem get_counts_once (self : Cache) (key : CacheKey) (now1 now2 : Z) :
  hits (statistics (snd (get key now1 now2 self)))
  + misses (statistics (snd (get key now1 now2 self))) =
  hits (statistics self) + misses (statistics self) + 1 /\
  (forall a, fst (get key now1 now2 self) = Some a ->
             data self !! key = Some a /\ now2 < expiration a) /\
  (forall k a, data (snd (get key now1 now2 self)) !! k = Some a ->
               data self !! k = Some a).
Proof.
  unfold get.
  destruct (data (_maybe_clean now1 self) !! key) as [a'|] eqn:Hk.
  - apply maybe_clean_lookup_sub in Hk.
    destruct (Z.gtb_spec (expiration a') now2) as [Hf|He];
      cbn [fst snd count_hit count_miss statistics hits misses data];
      rewrite maybe_clean_statistics.
    + split; [lia|]. split.
      * intros a Ha. inversion Ha; subst. split; [exact Hk|lia].
      * intros k a. apply maybe_clean_lookup_sub.
    + split; [lia|]. split; [discriminate|].
      intros k a. apply maybe_clean_lookup_sub.
  - cbn [fst snd count_miss statistics hits misses data].
    rewrite maybe_clean_statistics.
    split; [lia|]. split; [discriminate|].
    intros k a. apply maybe_clean_lookup_sub.
Qed.

(** [put] overwrites: after two puts under one key the cache holds the
    second answer.  It leaves the statistics alone, and it leaves every
    entry under another key alone unless that entry has expired at the
    time of the put. *)
Theorem put_overwrites_and_keeps_others (self : Cache) (k : CacheKey)
  (a b : Answer) (t1 t2 : Z) :
  data (put k b t2 (put k a t1 self)) !! k = Some b /\
  statistics (put k a t1 self) = statistics self /\
  (forall k' a', k' <> k -> data self !! k' = Some a' ->
                 t1 < expiration a' ->
                 data (put k a t1 self) !! k' = Some a') /\
  (forall k' a', k' <> k -> data (put k a t1 self) !! k' = Some a' ->
                 data self !! k' = Some a').
Proof.
  split; [apply put_lookup|]. split; [apply put_statistics|]. split.
  - intros k' a' Hne Hk' Hfresh. unfold put. cbn [data with_data].
    rewrite lookup_insert_ne by congruence.
    apply maybe_clean_lookup_fresh; assumption.
  - intros k' a' Hne Hk'. unfold put in Hk'. cbn [data with_data] in Hk'.
    rewrite lookup_insert_ne in Hk' by congruence.
    apply maybe_clean_lookup_sub in Hk'. exact Hk'.
Qed.

(** After [flush(key)] a [get] of that key is a miss, whatever the clock
    shows, and the entries under other keys are as before; after
    [flush()] every [get] is a miss.  Either way the next sweep is put
    off to one cleaning interval after the flush. *)
Theorem flush_then_get_misses (self : Cache) (key : CacheKey)
  (now now1 now2 : Z) :
  fst (get key now1 now2 (flush (Some key) now self)) = None /\
  (forall k, k <> key ->
     data (flush (Some key) now self) !! k = data self !! k) /\
  (forall k, fst (get k now1 now2 (flush None now self)) = None) /\
  (forall target,
     next_cleaning (flush target now self) = now + cleaning_interval self).
Proof.
  split; [|split; [|split]].
  - rewrite get_missing; [reflexivity|]. unfold flush.
    cbn [data with_next_cleaning with_data]. apply lookup_delete_eq.
  - intros k Hne. unfold flush. cbn [data with_next_cleaning with_data].
    apply lookup_delete_ne. congruence.
  - intros k. rewrite get_missing; [reflexivity|]. unfold flush.
    cbn [data with_next_cleaning with_data]. apply lookup_empty.
  - intros target. reflexivity.
Qed.

(** *** Gets and first puts in the LRU cache *)

(** A [get] in the LRU cache of a key that is not there returns [None],
    counts a miss and leaves the cache as it is otherwise; a [get] of a
    key whose answer has not expired returns the answer, counts a hit,
    and adds one to the hits of that key. *)
Theorem lru_get_counts (self : LRUCache) (key : CacheKey) (now : Z) :
  (lru_data self !! key = None ->
     lru_get key now self = (None, lru_count_miss self) /\
     get_hits_for_key key self = 0) /\
  (forall node, lru_data self !! key = Some node ->
     now < expiration (value node) ->
     fst (lru_get key now self) = Some (value node) /\
     get_hits_for_key key (snd (lru_get key now self)) =
       get_hits_for_key key self + 1 /\
     hits (lru_statistics (snd (lru_get key now self))) =
       hits (lru_statistics self) + 1 /\
     misses (lru_statistics (snd (lru_get key now self))) =
       misses (lru_statistics self)) /\
  (forall node, lru_data self !! key = Some node ->
     expiration (value node) <= now ->
     fst (lru_get key now self) = None /\
     misses (lru_statistics (snd (lru_get key now self))) =
       misses (lru_statistics self) + 1).
Proof.
  split; [|split].
  - intros Hk. unfold lru_get, get_hits_for_key. rewrite Hk.
    split; reflexivity.
  - intros node Hk Hfresh. unfold lru_get, get_hits_for_key. rewrite Hk.
    destruct (Z.leb_spec (expiration (value node)) now); [lia|].
    cbn [fst snd lru_count_hit _move_to_front lru_with lru_data
         lru_statistics hits misses].
    rewrite lookup_insert_eq. cbn [node_hits]. auto.
  - intros node Hk Hexp. unfold lru_get. rewrite Hk.
    destruct (Z.leb_spec (expiration (value node)) now); [|lia].
    split; reflexivity.
Qed.

(** A [put] of a new key into an LRU cache that is not full evicts
    nothing: it returns (with any bound on the eviction loop), the new
    node has no hits, the cache has one entry more, and the entries under
    other keys are as before. *)
Theorem lru_put_new_key (fuel : nat) (self : LRUCache) (key : CacheKey)
  (value_ : Answer) :
  lru_data self !! key = None ->
  Z.of_nat (size (lru_data self)) < max_size self ->
  exists self',
    lru_put fuel key value_ self = Some self' /\
    lru_data self' !! key = Some (mkLRUCacheNode value_ 0) /\
    get_hits_for_key key self' = 0 /\
    size (lru_data self') = S (size (lru_data self)) /\
    (forall k, k <> key -> lru_data self' !! k = lru_data self !! k) /\
    lru_statistics self' = lru_statistics self.
Proof.
  intros Hk Hroom. unfold lru_put. rewrite Hk.
  assert (Hev : evict fuel self = Some self).
  { destruct fuel; cbn [evict];
      destruct (Z.geb_spec (Z.of_nat (size (lru_data self))) (max_size self));
      try lia; reflexivity. }
  rewrite Hev. eexists. split; [reflexivity|].
  unfold get_hits_for_key.
  cbn [_add_front lru_with lru_data lru_order lru_statistics].
  rewrite lookup_insert_eq. cbn [node_hits].
  repeat split; try reflexivity.
  - apply map_size_insert_None. exact Hk.
  - intros k Hne. apply lookup_insert_ne. congruence.
Qed.

End Caches.

(* --------------------------------------------------------------------- *)
(** *** Adding NXDOMAIN exceptions *)

Section Aggregation.
Context {Name : Type} `{Countable Name}.

(** The keyword arguments an [NXDOMAIN] exception was raised with; either
    may be missing. *)
Record NXDOMAIN_kwargs : Type := mkNXDOMAIN {
  kw_qnames : option (list Name);
  kw_responses : option (gmap Name Response)
}.

(** [self.kwargs.get('qnames', [])] and [self.kwargs.get('responses', {})] *)
Definition nx_qnames (e : NXDOMAIN_kwargs) : list Name :=
  default [] (kw_qnames e).

Definition nx_responses (e : NXDOMAIN_kwargs) : gmap Name Response :=
  default ∅ (kw_responses e).

(** [NXDOMAIN.canonical_name] *)
Definition nx_canonical_name (e : NXDOMAIN_kwargs) : option Name :=
  match kw_qnames e with
  | None => None
  | Some qs => last qs
  end.

(** The [for qname1 in e_nx.kwargs.get('qnames', [])] loop of [__add__],
    on [qnames0] and [responses0]. *)
Fixpoint add_loop (qnames1 : list Name) (responses1 : gmap Name Response)
  (acc : list Name * gmap Name Response) : list Name * gmap Name Response :=
  match qnames1 with
  | [] => acc
  | qname1 :: rest =>
      let qnames0 :=
        if bool_decide (qname1 ∈ fst acc) then fst acc
        else fst acc ++ [qname1] in
      let responses0 :=
        match responses1 !! qname1 with
        | Some r => <[qname1 := r]> (snd acc)
        | None => snd acc
        end in
      add_loop rest responses1 (qnames0, responses0)
  end.

(** [NXDOMAIN.__add__] *)
Definition NXDOMAIN_add (self e_nx : NXDOMAIN_kwargs) : NXDOMAIN_kwargs :=
  let r := add_loop (nx_qnames e_nx) (nx_responses e_nx)
                    (nx_qnames self, nx_responses self) in
  mkNXDOMAIN (Some (fst r)) (Some (snd r)).


Lemma add_loop_responses (qnames1 : list Name)
  (responses1 : gmap Name Response) (k : Name) : forall acc,
  snd (add_loop qnames1 responses1 acc) !! k =
  if bool_decide (k ∈ qnames1) then
    match responses1 !! k with
    | Some r => Some r
    | None => snd acc !! k
    end
  else snd acc !! k.
Proof.
  induction qnames1 as [|q rest IH]; intros acc.
  - cbn [add_loop]. rewrite bool_decide_eq_false_2; [reflexivity|].
    apply not_elem_of_nil.
  - cbn [add_loop]. cbv zeta. rewrite IH. cbn [snd].
    destruct (decide (k = q)) as [->|Hne].
    + rewrite (bool_decide_eq_true_2 (q ∈ q :: rest)) by left.
      destruct (responses1 !! q) as [r|] eqn:Hr.
      * destruct (bool_decide (q ∈ rest)); [reflexivity|].
        apply lookup_insert_eq.
      * destruct (bool_decide (q ∈ rest)); reflexivity.
    + assert (Hk : match responses1 !! q with
                   | Some r => <[q := r]> (snd acc)
                   | None => snd acc
                   end !! k = snd acc !! k).
      { destruct (responses1 !! q); [|reflexivity].
        apply lookup_insert_ne. congruence. }
      rewrite Hk.
      destruct (decide (k ∈ rest)) as [Hin|Hnin].
      * rewrite !bool_decide_eq_true_2; [reflexivity|right; exact Hin|exact Hin].
      * rewrite !bool_decide_eq_false_2; [reflexivity| |exact Hnin].
        intros Hin. apply elem_of_cons in Hin as [?|?]; contradiction.
Qed.


(** The responses of [e1 + e2]: for a name that [e2] lists and has a
    response for, the response of [e2]; for every other name, what [e1]
    has (a response of [e2] under a name that [e2] does not list is
    dropped). *)
Theorem nxdomain_add_responses (e1 e2 : NXDOMAIN_kwargs) (k : Name) :
  nx_responses (NXDOMAIN_add e1 e2) !! k =
  if bool_decide (k ∈ nx_qnames e2) then
    match nx_responses e2 !! k with
    | Some r => Some r
    | None => nx_responses e1 !! k
    end
  else nx_responses e1 !! k.
Proof.
  exact (add_loop_responses (nx_qnames e2) (nx_responses e2) k
           (nx_qnames e1, nx_responses e1)).
Qed.

End Aggregation.

(* --------------------------------------------------------------------- *)
(** *** The resolution loop *)

Section Engine.
Context {Name : Type} `{Countable Name}.
Context {Rdata : Type}.

Local Abbreviation CacheKey := (@CacheKey Name).
Local Abbreviation Answer := (@Answer Name Rdata).
Local Abbreviation Cache := (@Cache Name _ _ Rdata).

Inductive exn : Type :=
| NXDOMAIN (qnames_ : list Name) (responses_ : gmap Name Response)
| LifetimeTimeout (timeout_ : Z) (errors_ : list (Nameserver * string))
| NoMetaqueries
| AttributeError
| IndexError.

(** [NXDOMAIN.qnames()] and [NXDOMAIN.responses()] *)
Definition qnames_of (e : exn) : list Name :=
  match e with NXDOMAIN qs _ => qs | _ => [] end.

Definition responses_of (e : exn) : gmap Name Response :=
  match e with NXDOMAIN _ rs => rs | _ => ∅ end.

(** A query message: the question, and whether TSIG and which EDNS
    settings were asked for. *)
Record Request : Type := mkRequest {
  question : CacheKey;
  tsig : option (string * string);
  use_edns : Z * Z * Z
}.

(** What a call of [dns.query.udp] or [dns.query.tcp] does: it returns a
    response or raises [dns.exception.Timeout] or some other exception. *)
Inductive transport : Type := UDP | TCP.

Inductive outcome : Type :=
| Reply (r : Response)
| Timeout
| Failure (message : string).

Record Resolver : Type := mkResolver {
  nameservers : list Nameserver;
  timeout : Z;
  lifetime : Z;
  keyring : option string;
  keyname : option string;
  edns : Z;
  ednsflags : Z;
  payload : Z;
  cache : option Cache;
  rotate : bool
}.

Record Resolution : Type := mkResolution {
  qnames_to_try : list Name;
  qnames : list Name;
  res_rdtype : Z;
  res_rdclass : Z;
  tcp : bool;
  raise_on_no_answer : bool;
  nxdomain_responses : gmap Name Response;
  res_qname : Name;
  errors : list (Nameserver * string)
}.

(** The objects a call of [resolve] works on, with the number of clock
    readings and of transport calls made so far. *)
Record State : Type := mkState {
  resolver : Resolver;
  resolution : Resolution;
  reads : nat;
  sent : nat
}.

(** The surroundings of a call: [dns.name.empty], [dns.flags.TC], the
    search-list planner [_get_qnames_to_try], the metatype tests and
    [Message.resolve_chaining] belong to modules that are not among the
    sources; the clock gives the value of the n-th reading of
    [time.time()], the network the outcome of the n-th transport call. *)
Variable empty : Name.
Variable TC : Z.
Variable _get_qnames_to_try : Resolver -> Name -> option bool -> list Name.
Variable is_metatype : Z -> bool.
Variable is_metaclass : Z -> bool.
Variable resolve_chaining : Response -> Name * option (list Rdata) * Z.
Variable clock : nat -> Z.
Variable network : nat -> transport -> Request -> Nameserver -> outcome.

Definition set_qnames (qs : list Name) (st : State) : State :=
  let r := resolution st in
  mkState (resolver st)
    (mkResolution (qnames_to_try r) qs (res_rdtype r) (res_rdclass r) (tcp r)
       (raise_on_no_answer r) (nxdomain_responses r) (res_qname r) (errors r))
    (reads st) (sent st).

Definition set_nxdomain_response (k : Name) (v : Response) (st : State)
  : State :=
  let r := resolution st in
  mkState (resolver st)
    (mkResolution (qnames_to_try r) (qnames r) (res_rdtype r) (res_rdclass r)
       (tcp r) (raise_on_no_answer r) (<[k := v]> (nxdomain_responses r))
       (res_qname r) (errors r))
    (reads st) (sent st).

Definition append_error (e : Nameserver * string) (st : State) : State :=
  let r := resolution st in
  mkState (resolver st)
    (mkResolution (qnames_to_try r) (qnames r) (res_rdtype r) (res_rdclass r)
       (tcp r) (raise_on_no_answer r) (nxdomain_responses r) (res_qname r)
       (errors r ++ [e]))
    (reads st) (sent st).

Definition set_cache (c : Cache) (st : State) : State :=
  let r := resolver st in
  mkState
    (mkResolver (nameservers r) (timeout r) (lifetime r) (keyring r)
       (keyname r) (edns r) (ednsflags r) (payload r) (Some c) (rotate r))
    (resolution st) (reads st) (sent st).

Definition set_nameservers (nss : list Nameserver) (st : State) : State :=
  let r := resolver st in
  mkState
    (mkResolver nss (timeout r) (lifetime r) (keyring r) (keyname r)
       (edns r) (ednsflags r) (payload r) (cache r) (rotate r))
    (resolution st) (reads st) (sent st).

Definition tick (n : nat) (st : State) : State :=
  mkState (resolver st) (resolution st) (reads st + n)%nat (sent st).

Definition set_sent (n : nat) (st : State) : State :=
  mkState (resolver st) (resolution st) (reads st) n.

(** [_Resolution.__init__], for a query name that is already a name. *)
Definition Resolution_init (self : Resolver) (qname_ : Name)
  (rdtype_ rdclass_ : Z) (tcp_ raise_on_no_answer_ : bool)
  (search : option bool) : exn + Resolution :=
  if is_metatype rdtype_ then inl NoMetaqueries
  else if is_metaclass rdclass_ then inl NoMetaqueries
  else
    let qnames_to_try_ := _get_qnames_to_try self qname_ search in
    inr (mkResolution qnames_to_try_ qnames_to_try_ rdtype_ rdclass_ tcp_
           raise_on_no_answer_ ∅ empty []).

(** [dns.message.make_query] followed by [use_tsig] and [use_edns]. *)
Definition make_request (self : Resolver) (key : CacheKey) : Request :=
  mkRequest key
    (match keyname self with
     | Some kn => Some (default EmptyString (keyring self), kn)
     | None => None
     end)
    (edns self, ednsflags self, payload self).

Definition is_none {A : Type} (o : option A) : bool :=
  match o with None => true | Some _ => false end.

(** How many times [Cache.get] reads the clock. *)
Definition get_reads (key : CacheKey) (now1 : Z) (c : Cache) : nat :=
  match data (_maybe_clean now1 c) !! key with
  | Some _ => 2%nat
  | None => 1%nat
  end.

(** [_Resolution.next_request]: the [while len(self.qnames) > 0] loop, by
    recursion on [self.qnames]. *)
Fixpoint next_request_from (qs : list Name) (st : State)
  : (exn + (option Request * option Answer)) * State :=
  match qs with
  | [] => (inr (None, None), st)
  | qname_ :: rest =>
      let st := set_qnames rest st in
      let key := (qname_, res_rdtype (resolution st),
                  res_rdclass (resolution st)) in
      match cache (resolver st) with
      | None => (inl AttributeError, st)
      | Some c =>
          let now1 := clock (reads st) in
          let now2 := clock (S (reads st)) in
          let (answer, c') := get key now1 now2 c in
          let st := set_cache c' (tick (get_reads key now1 c) st) in
          match answer with
          | Some a =>
              if is_none (rrset a) && (rcode (response a) =? NXDOMAIN_rcode)
              then next_request_from rest
                     (set_nxdomain_response qname_ (response a) st)
              else (inr (None, Some a), st)
          | None => (inr (Some (make_request (resolver st) key), None), st)
          end
      end
  end.

Definition next_request (st : State)
  : (exn + (option Request * option Answer)) * State :=
  next_request_from (qnames (resolution st)) st.

(** [Resolver._get_next_nameserver] *)
Definition _get_next_nameserver (st : State) : (exn + Nameserver) * State :=
  match nameservers (resolver st) with
  | [] => (inl IndexError, st)
  | ns :: rest =>
      if rotate (resolver st)
      then (inr ns, set_nameservers (rest ++ [ns]) st)
      else (inr ns, st)
  end.

(** The body of the [try]: one or two transport calls, the first of which
    is call number [n]. *)
Definition dispatch (tcp_ : bool) (request : Request) (ns : Nameserver)
  (n : nat) : outcome * nat :=
  if tcp_ then (network n TCP request ns, S n)
  else
    match network n UDP request ns with
    | Reply r =>
        if negb (Z.land (flags r) TC =? 0)
        then (network (S n) TCP request ns, S (S n))
        else (Reply r, S n)
    | o => (o, S n)
    end.

(** [lifetime or self.lifetime] *)
Definition lifetime_or (lifetime_ : option Z) (self : Resolver) : Z :=
  match lifetime_ with
  | Some l => if l =? 0 then lifetime self else l
  | None => lifetime self
  end.

(** The [while not done] loop, for at most [fuel] turns; [None] when the
    turns are used up. *)
Fixpoint query_loop (fuel : nat) (tcp_ : bool) (lifetime_ : option Z)
  (start : Z) (request : Request) (st : State)
  : option ((exn + (Response * Nameserver)) * State) :=
  match fuel with
  | O => None
  | S fuel' =>
      match _get_next_nameserver st with
      | (inl e, st1) => Some (inl e, st1)
      | (inr ns, st1) =>
          let (o, n) := dispatch tcp_ request ns (sent st1) in
          let st2 := set_sent n st1 in
          match o with
          | Timeout =>
              query_loop fuel' tcp_ lifetime_ start request
                (append_error (ns, "timed out"%string) st2)
          | Failure message =>
              query_loop fuel' tcp_ lifetime_ start request
                (append_error (ns, message) st2)
          | Reply r =>
              let done := (rcode r =? NOERROR) || (rcode r =? NXDOMAIN_rcode) in
              let now := clock (reads st2) in
              let st3 := tick 1 st2 in
              if now - start >? lifetime_or lifetime_ (resolver st3)
              then Some (inl (LifetimeTimeout (lifetime (resolver st3))
                                              (errors (resolution st3))), st3)
              else if done then Some (inr (r, ns), st3)
              else query_loop fuel' tcp_ lifetime_ start request st3
          end
      end
  end.

(** [Answer.__init__]; [now] is its reading of the clock. *)
Definition Answer_init (qname_ : Name) (rdtype_ rdclass_ : Z)
  (response_ : Response) (nameserver_ : option string) (now : Z) : Answer :=
  let '(canonical, answer, minimum_ttl) := resolve_chaining response_ in
  mkAnswer qname_ rdtype_ rdclass_ response_ nameserver_ canonical answer
           (now + minimum_ttl).

(** [if answer:] *)
Definition truthy (answer : option Answer) : bool :=
  match answer with
  | Some a => negb (Answer_len a =? 0)
  | None => false
  end.

(** The [while True] loop of [Resolver.resolve], for at most [fuel] turns
    (of this loop, and of each inner loop). *)
Fixpoint resolve_loop (fuel : nat) (rdtype_ rdclass_ : Z) (tcp_ : bool)
  (lifetime_ : option Z) (start : Z) (st : State)
  : option ((exn + Answer) * State) :=
  match fuel with
  | O => None
  | S fuel' =>
      match next_request st with
      | (inl e, st1) => Some (inl e, st1)
      | (inr (request, answer), st1) =>
          if truthy answer then
            match answer with
            | Some a => Some (inr a, st1)
            | None => None
            end
          else
            match request with
            | None =>
                Some (inl (NXDOMAIN (qnames (resolution st1))
                             (nxdomain_responses (resolution st1))), st1)
            | Some request =>
                match query_loop fuel tcp_ lifetime_ start request st1 with
                | None => None
                | Some (inl e, st2) => Some (inl e, st2)
                | Some (inr (r, ns), st2) =>
                    if rcode r =? NXDOMAIN_rcode then
                      resolve_loop fuel' rdtype_ rdclass_ tcp_ lifetime_ start
                        (set_nxdomain_response (res_qname (resolution st2)) r
                           st2)
                    else
                      let answer :=
                        Answer_init (res_qname (resolution st2)) rdtype_
                          rdclass_ r (Some (address ns)) (clock (reads st2)) in
                      let st3 := tick 1 st2 in
                      match cache (resolver st3) with
                      | None => Some (inl AttributeError, st3)
                      | Some c =>
                          let key := (res_qname (resolution st3), rdtype_,
                                      rdclass_) in
                          let c' := put key answer (clock (reads st3)) c in
                          Some (inr answer, set_cache c' (tick 1 st3))
                      end
                end
            end
      end
  end.

(** [Resolver.resolve]: the result, and the resolver as the call leaves
    it; [None] when [fuel] turns did not finish the call. *)
Definition resolve (fuel : nat) (self : Resolver) (qname_ : Name)
  (rdtype_ rdclass_ : Z) (tcp_ : bool) (raise_on_no_answer_ : bool)
  (lifetime_ : option Z) (search : option bool)
  : option ((exn + Answer) * Resolver) :=
  match Resolution_init self qname_ rdtype_ rdclass_ tcp_
          raise_on_no_answer_ search with
  | inl e => Some (inl e, self)
  | inr resolution_ =>
      let start := clock 0 in
      match resolve_loop fuel rdtype_ rdclass_ tcp_ lifetime_ start
              (mkState self resolution_ 1 0) with
      | None => None
      | Some (r, st) => Some (r, resolver st)
      end
  end.

(** What the loop keeps true while no answer is cached: the resolver has
    a cache, the cache holds nothing, there is a nameserver, and the
    resolution's [qname] is still the empty name it was initialised to. *)
Definition idle (L : Z) (st : State) : Prop :=
  (exists c, cache (resolver st) = Some c /\ data c = ∅) /\
  nameservers (resolver st) <> [] /\
  lifetime (resolver st) = L /\
  res_qname (resolution st) = empty.

(** *** Facts about the resolution loop *)

Lemma maybe_clean_empty (now : Z) (c : Cache) :
  data c = ∅ -> data (_maybe_clean now c) = ∅.
Proof.
  intros Hc. unfold _maybe_clean. destruct (next_cleaning c <=? now).
  - cbn [data with_next_cleaning with_data]. rewrite Hc.
    unfold keys_to_delete. rewrite map_to_list_empty. reflexivity.
  - exact Hc.
Qed.

Lemma get_on_empty (key : CacheKey) (now1 now2 : Z) (c : Cache) :
  data c = ∅ ->
  get key now1 now2 c = (None, count_miss (_maybe_clean now1 c)) /\
  get_reads key now1 c = 1%nat /\
  data (count_miss (_maybe_clean now1 c)) = ∅.
Proof.
  intros Hc. pose proof (maybe_clean_empty now1 c Hc) as Hc'.
  split; [|split].
  - apply get_missing. rewrite Hc. apply lookup_empty.
  - unfold get_reads. rewrite Hc'. rewrite lookup_empty. reflexivity.
  - exact Hc'.
Qed.

(** With nothing cached, [next_request] takes the first candidate off
    [qnames] and returns a request for it. *)
Lemma next_request_on_empty (L : Z) (st : State) (q : Name)
  (rest : list Name) :
  idle L st -> qnames (resolution st) = q :: rest ->
  exists request st1,
    next_request st = (inr (Some request, None), st1) /\
    idle L st1 /\
    qnames (resolution st1) = rest /\
    nxdomain_responses (resolution st1) = nxdomain_responses (resolution st) /\
    errors (resolution st1) = errors (resolution st).
Proof.
  intros ((c & Hc & Hdata) & Hns & Hl & Hq) Hqs.
  unfold next_request. rewrite Hqs. cbn [next_request_from].
  cbn [set_qnames resolver resolution reads]. rewrite Hc.
  destruct (get_on_empty
              (q, res_rdtype (resolution st), res_rdclass (resolution st))
              (clock (reads st)) (clock (S (reads st))) c Hdata)
    as (Hget & Hreads & Hdata').
  cbn [res_rdtype res_rdclass]. rewrite Hget, Hreads.
  eexists. eexists. split; [reflexivity|].
  unfold idle. cbn. rewrite Hl, Hq. repeat split; try assumption; try reflexivity.
  eexists. split; [reflexivity|exact Hdata'].
Qed.

Lemma get_next_nameserver_some (st : State) :
  nameservers (resolver st) <> [] ->
  exists ns st1,
    _get_next_nameserver st = (inr ns, st1) /\
    nameservers (resolver st1) <> [] /\
    cache (resolver st1) = cache (resolver st) /\
    lifetime (resolver st1) = lifetime (resolver st) /\
    resolution st1 = resolution st /\
    reads st1 = reads st /\ sent st1 = sent st.
Proof.
  intros Hns. unfold _get_next_nameserver.
  destruct (nameservers (resolver st)) as [|ns rest] eqn:Hn; [contradiction|].
  destruct (rotate (resolver st)).
  - exists ns. eexists. split; [reflexivity|]. cbn.
    repeat split; try reflexivity. intros Habs.
    apply app_eq_nil in Habs as [_ Habs]. discriminate Habs.
  - exists ns, st. rewrite Hn. repeat split; try reflexivity. discriminate.
Qed.

(** Against a server that never answers, the [while not done] loop does
    not come to an end, whatever the clock shows: no number of turns is
    enough. *)
Lemma query_loop_black_hole (fuel : nat) (tcp_ : bool) (lifetime_ : option Z)
  (start : Z) (request : Request) :
  (forall n t rq ns, network n t rq ns = Timeout) ->
  forall st, nameservers (resolver st) <> [] ->
  query_loop fuel tcp_ lifetime_ start request st = None.
Proof.
  intros Hnet. induction fuel as [|fuel IH]; intros st Hns; [reflexivity|].
  cbn [query_loop].
  destruct (get_next_nameserver_some st Hns)
    as (ns & st1 & -> & Hns1 & _).
  assert (Hd : dispatch tcp_ request ns (sent st1) = (Timeout, S (sent st1))).
  { unfold dispatch. destruct tcp_; rewrite Hnet; reflexivity. }
  rewrite Hd. apply IH. exact Hns1.
Qed.

(** The test of the lifetime is there, on the path of a call that
    returned: a reply that comes in after the lifetime has run out makes
    the loop raise [LifetimeTimeout] with the trace collected so far. *)
Lemma query_loop_reply_checks_lifetime (fuel : nat) (tcp_ : bool)
  (lifetime_ : option Z) (start : Z) (request : Request) (r : Response)
  (st : State) :
  (forall n t rq ns, network n t rq ns = Reply r) ->
  Z.land (flags r) TC = 0 ->
  nameservers (resolver st) <> [] ->
  lifetime_or lifetime_ (resolver st) < clock (reads st) - start ->
  exists st',
    query_loop (S fuel) tcp_ lifetime_ start request st =
    Some (inl (LifetimeTimeout (lifetime (resolver st))
                               (errors (resolution st))), st').
Proof.
  intros Hnet Htc Hns Hlate. cbn [query_loop].
  destruct (get_next_nameserver_some st Hns)
    as (ns & st1 & -> & _ & _ & Hl1 & Hres1 & Hreads1 & _).
  assert (Hd : exists n, dispatch tcp_ request ns (sent st1) = (Reply r, n)).
  { unfold dispatch. destruct tcp_; rewrite Hnet.
    - eexists. reflexivity.
    - rewrite Htc. cbn. eexists. reflexivity. }
  destruct Hd as [n ->].
  cbn [tick set_sent resolver resolution reads sent].
  unfold lifetime_or in *. rewrite Hl1, Hres1, Hreads1.
  destruct (Z.gtb_spec (clock (reads st) - start)
              match lifetime_ with
              | Some l => if l =? 0 then lifetime (resolver st) else l
              | None => lifetime (resolver st)
              end) as [_|Hnot]; [|lia].
  eexists. reflexivity.
Qed.

(** C1, evaluated on the code: with a cache that holds nothing, at least
    one nameserver and at least one candidate name, a resolve for which
    every transport call raises a per-call timeout does not return and
    does not raise, for any number of turns of its loops and any clock:
    the handler of the timeout continues the loop before the test of the
    lifetime is reached, so [LifetimeTimeout] is never raised. *)
Theorem resolve_black_hole_never_returns (fuel : nat) (self : Resolver)
  (qname_ : Name) (rdtype_ rdclass_ : Z) (tcp_ raise_on_no_answer_ : bool)
  (lifetime_ : option Z) (search : option bool) (c : Cache) :
  (forall n t rq ns, network n t rq ns = Timeout) ->
  is_metatype rdtype_ = false -> is_metaclass rdclass_ = false ->
  _get_qnames_to_try self qname_ search <> [] ->
  nameservers self <> [] ->
  cache self = Some c -> data c = ∅ ->
  resolve fuel self qname_ rdtype_ rdclass_ tcp_ raise_on_no_answer_
          lifetime_ search = None.
Proof.
  intros Hnet Hmt Hmc Hqs Hns Hc Hdata.
  unfold resolve, Resolution_init. rewrite Hmt, Hmc.
  destruct (_get_qnames_to_try self qname_ search) as [|q rest] eqn:Hplan;
    [contradiction|].
  destruct fuel as [|fuel]; [reflexivity|].
  cbn [resolve_loop].
  edestruct (next_request_on_empty (lifetime self)) as
    (request & st1 & -> & (_ & Hns1 & _) & _).
  { unfold idle. cbn. split; [|split; [exact Hns|split; reflexivity]].
    exists c. split; assumption. }
  { reflexivity. }
  cbn [truthy].
  rewrite (query_loop_black_hole (S fuel) tcp_ lifetime_ (clock 0) request
             Hnet st1 Hns1).
  reflexivity.
Qed.

(** One turn of the outer loop when the answer is NXDOMAIN: the response
    is stored under [resolution.qname], the empty name, and the loop goes
    on with one candidate fewer. *)
Lemma resolve_loop_nxdomain_step (L : Z) (fuel : nat) (rdtype_ rdclass_ : Z)
  (tcp_ : bool) (lifetime_ : option Z) (start : Z) (r : Response)
  (st : State) (q : Name) (rest : list Name) :
  (forall n t rq ns, network n t rq ns = Reply r) ->
  rcode r = NXDOMAIN_rcode -> Z.land (flags r) TC = 0 ->
  (forall n, clock n - start <=
             match lifetime_ with
             | Some l => if l =? 0 then L else l
             | None => L
             end) ->
  idle L st -> qnames (resolution st) = q :: rest ->
  exists st',
    resolve_loop (S fuel) rdtype_ rdclass_ tcp_ lifetime_ start st =
    resolve_loop fuel rdtype_ rdclass_ tcp_ lifetime_ start st' /\
    idle L st' /\
    qnames (resolution st') = rest /\
    nxdomain_responses (resolution st') =
      <[empty := r]> (nxdomain_responses (resolution st)).
Proof.
  intros Hnet Hr Htc Hclock Hidle Hqs.
  cbn [resolve_loop].
  destruct (next_request_on_empty L st q rest Hidle Hqs)
    as (request & st1 & -> & Hidle1 & Hqs1 & Hnx1 & _).
  cbn [truthy query_loop].
  destruct Hidle1 as (Hc1 & Hns1 & Hl1 & Hq1).
  destruct (get_next_nameserver_some st1 Hns1)
    as (ns & st2 & -> & Hns2 & Hc2 & Hl2 & Hres2 & Hreads2 & Hsent2).
  assert (Hd : exists n, dispatch tcp_ request ns (sent st2) = (Reply r, n)).
  { unfold dispatch. destruct tcp_; rewrite Hnet.
    - eexists. reflexivity.
    - rewrite Htc. cbn. eexists. reflexivity. }
  destruct Hd as [n ->].
  cbn [tick set_sent resolver resolution reads sent].
  unfold lifetime_or. rewrite Hl2, Hl1.
  destruct (Z.gtb_spec (clock (reads st2) - start)
              match lifetime_ with
              | Some l => if l =? 0 then L else l
              | None => L
              end) as [Hover|_].
  { specialize (Hclock (reads st2)). lia. }
  assert (Hnx : (rcode r =? NXDOMAIN_rcode) = true)
    by (rewrite Hr; reflexivity).
  rewrite Hnx, orb_true_r. cbv beta iota. rewrite Hnx.
  eexists. split; [reflexivity|].
  unfold idle. cbn. rewrite Hres2, Hc2, Hl2, Hl1, Hq1, Hqs1, Hnx1.
  repeat split; try assumption; reflexivity.
Qed.

Lemma resolve_loop_all_nxdomain (L : Z) (rdtype_ rdclass_ : Z) (tcp_ : bool)
  (lifetime_ : option Z) (start : Z) (r : Response) :
  (forall n t rq ns, network n t rq ns = Reply r) ->
  rcode r = NXDOMAIN_rcode -> Z.land (flags r) TC = 0 ->
  (forall n, clock n - start <=
             match lifetime_ with
             | Some l => if l =? 0 then L else l
             | None => L
             end) ->
  forall (qs : list Name) (fuel : nat) (st : State),
  idle L st -> qnames (resolution st) = qs ->
  nxdomain_responses (resolution st) = {[empty := r]} ->
  (length qs < fuel)%nat ->
  exists st',
    resolve_loop fuel rdtype_ rdclass_ tcp_ lifetime_ start st =
    Some (inl (NXDOMAIN [] {[empty := r]}), st').
Proof.
  intros Hnet Hr Htc Hclock.
  induction qs as [|q rest IH]; intros fuel st Hidle Hqs Hnx Hfuel.
  - destruct fuel as [|fuel]; [cbn in Hfuel; lia|].
    cbn [resolve_loop]. unfold next_request. rewrite Hqs.
    cbn [next_request_from truthy]. rewrite Hqs, Hnx.
    eexists. reflexivity.
  - destruct fuel as [|fuel]; [cbn in Hfuel; lia|].
    destruct (resolve_loop_nxdomain_step L fuel rdtype_ rdclass_ tcp_
                lifetime_ start r st q rest Hnet Hr Htc Hclock Hidle Hqs)
      as (st' & -> & Hidle' & Hqs' & Hnx').
    apply IH; [exact Hidle'|exact Hqs'| |cbn [length] in Hfuel; lia].
    rewrite Hnx', Hnx. apply insert_singleton_eq.
Qed.

(** C2, evaluated on the code: with a cache that holds nothing and a
    nameserver that answers every query with the NXDOMAIN response [r],
    a resolve whose planner yields one candidate or more raises an
    [NXDOMAIN] whose [qnames()] is the empty list (the candidates were
    popped off the list that is handed to the exception) and whose
    [responses()] has the one key [dns.name.empty]: none of the k
    candidates is in either. *)
Theorem resolve_all_nxdomain_loses_qnames (fuel : nat) (self : Resolver)
  (qname_ : Name) (rdtype_ rdclass_ : Z) (tcp_ raise_on_no_answer_ : bool)
  (lifetime_ : option Z) (search : option bool) (c : Cache) (r : Response) :
  (forall n t rq ns, network n t rq ns = Reply r) ->
  rcode r = NXDOMAIN_rcode -> Z.land (flags r) TC = 0 ->
  (forall n, clock n - clock 0 <= lifetime_or lifetime_ self) ->
  is_metatype rdtype_ = false -> is_metaclass rdclass_ = false ->
  _get_qnames_to_try self qname_ search <> [] ->
  nameservers self <> [] ->
  cache self = Some c -> data c = ∅ ->
  (length (_get_qnames_to_try self qname_ search) < fuel)%nat ->
  exists e self',
    resolve fuel self qname_ rdtype_ rdclass_ tcp_ raise_on_no_answer_
            lifetime_ search = Some (inl e, self') /\
    e = NXDOMAIN [] {[empty := r]} /\
    qnames_of e = [] /\
    responses_of e = {[empty := r]}.
Proof.
  intros Hnet Hr Htc Hclock Hmt Hmc Hplan Hns Hc Hdata Hfuel.
  unfold resolve, Resolution_init. rewrite Hmt, Hmc.
  destruct (_get_qnames_to_try self qname_ search) as [|q rest] eqn:Hqs;
    [contradiction|].
  destruct fuel as [|fuel]; [cbn in Hfuel; lia|].
  edestruct (resolve_loop_nxdomain_step (lifetime self) fuel rdtype_ rdclass_
               tcp_ lifetime_ (clock 0) r) as (st' & -> & Hidle' & Hqs' & Hnx');
    [exact Hnet|exact Hr|exact Htc|exact Hclock| | |].
  { unfold idle. cbn. split; [|split; [exact Hns|split; reflexivity]].
    exists c. split; assumption. }
  { reflexivity. }
  cbn [nxdomain_responses resolution] in Hnx'.
  edestruct (resolve_loop_all_nxdomain (lifetime self) rdtype_ rdclass_ tcp_
               lifetime_ (clock 0) r Hnet Hr Htc Hclock rest fuel st')
    as (st'' & ->); [exact Hidle'|exact Hqs'| |cbn [length] in Hfuel; lia|].
  { rewrite Hnx'. apply insert_empty. }
  eexists. eexists. split; [reflexivity|]. repeat split.
Qed.


(** *** What [next_request] hands out *)

Lemma next_request_from_spec (qs : list Name) : forall st request answer st',
  qnames (resolution st) = qs ->
  next_request_from qs st = (inr (request, answer), st') ->
  (request = None \/ answer = None) /\
  (forall rq, request = Some rq ->
     exists q, q ∈ qs /\
       question rq = (q, res_rdtype (resolution st),
                      res_rdclass (resolution st))) /\
  (exists tried, qs = tried ++ qnames (resolution st')) /\
  (request = None -> answer = None -> qnames (resolution st') = []).
Proof.
  induction qs as [|q rest IH]; intros st request answer st' Hqs Hnext.
  - cbn in Hnext. inversion Hnext; subst. split; [left; reflexivity|].
    split; [discriminate|]. split; [exists []; rewrite Hqs; reflexivity|].
    intros _ _. exact Hqs.
  - cbn [next_request_from] in Hnext. cbv zeta in Hnext.
    cbn [set_qnames resolver resolution reads res_rdtype res_rdclass]
      in Hnext.
    destruct (cache (resolver st)) as [c|]; [|discriminate].
    destruct (get (q, res_rdtype (resolution st), res_rdclass (resolution st))
                (clock (reads st)) (clock (S (reads st))) c)
      as [[a|] c'] eqn:Hget.
    + destruct (is_none (rrset a) && (rcode (response a) =? NXDOMAIN_rcode)).
      * apply IH in Hnext; [|reflexivity].
        destruct Hnext as (Hone & Hreq & [tried Htried] & Hend).
        cbn [set_nxdomain_response set_cache tick set_qnames resolver
             resolution res_rdtype res_rdclass] in Hreq.
        split; [exact Hone|]. split.
        -- intros rq Hrq. destruct (Hreq rq Hrq) as (q' & Hq' & Hquestion).
           exists q'. split; [right; exact Hq'|exact Hquestion].
        -- split; [|exact Hend]. exists (q :: tried). rewrite Htried at 1.
           reflexivity.
      * inversion Hnext; subst. split; [left; reflexivity|].
        split; [discriminate|]. split; [|discriminate].
        exists [q]. reflexivity.
    + inversion Hnext; subst. split; [right; reflexivity|]. split.
      * intros rq Hrq. inversion Hrq; subst. exists q. split; [left|].
        reflexivity.
      * split; [|discriminate]. exists [q]. reflexivity.
Qed.

(** When [next_request] returns, at most one of the request and the
    answer is there; a request asks for one of the candidates that were
    still to be tried, with the type and class of the resolution; the
    candidates left are those that followed the ones tried; and neither a
    request nor an answer comes back only when no candidate is left. *)
Theorem next_request_gives_one (st st' : State) (request : option Request)
  (answer : option Answer) :
  next_request st = (inr (request, answer), st') ->
  (request = None \/ answer = None) /\
  (forall rq, request = Some rq ->
     exists q, q ∈ qnames (resolution st) /\
       question rq = (q, res_rdtype (resolution st),
                      res_rdclass (resolution st))) /\
  (exists tried,
     qnames (resolution st) = tried ++ qnames (resolution st')) /\
  (request = None -> answer = None -> qnames (resolution st') = []).
Proof.
  intros Hnext.
  exact (next_request_from_spec (qnames (resolution st)) st request answer
           st' eq_refl Hnext).
Qed.

(** *** The order in which nameservers are asked *)

(** [k] calls of [_get_next_nameserver], one after the other: the servers
    they return, and the state they leave. *)
Fixpoint take_servers (k : nat) (st : State) : list Nameserver * State :=
  match k with
  | O => ([], st)
  | S k' =>
      match _get_next_nameserver st with
      | (inr ns, st1) =>
          let (servers, st2) := take_servers k' st1 in (ns :: servers, st2)
      | (inl _, st1) => ([], st1)
      end
  end.

Lemma take_servers_rotating (k : nat) : forall st,
  rotate (resolver st) = true ->
  (k <= length (nameservers (resolver st)))%nat ->
  fst (take_servers k st) = take k (nameservers (resolver st)) /\
  nameservers (resolver (snd (take_servers k st))) =
    drop k (nameservers (resolver st)) ++ take k (nameservers (resolver st)).
Proof.
  induction k as [|k IH]; intros st Hrot Hk.
  - cbn. rewrite app_nil_r. split; reflexivity.
  - cbn [take_servers]. unfold _get_next_nameserver. rewrite Hrot.
    destruct (nameservers (resolver st)) as [|ns rest] eqn:Hn;
      [cbn in Hk; lia|].
    cbn [length] in Hk.
    destruct (IH (set_nameservers (rest ++ [ns]) st)) as [Hfst Hsnd].
    { exact Hrot. }
    { cbn. rewrite length_app. cbn. lia. }
    cbn [set_nameservers resolver nameservers] in Hfst, Hsnd.
    destruct (take_servers k (set_nameservers (rest ++ [ns]) st))
      as [servers st2].
    cbn [fst snd] in *. rewrite Hfst, Hsnd.
    rewrite take_app_le, drop_app_le by lia.
    cbn [take drop]. rewrite <- app_assoc. split; reflexivity.
Qed.

(** With [rotate] set, as many calls of [_get_next_nameserver] as there
    are nameservers return each nameserver once, in the order of the
    list, and leave the list as it was at the start; fewer calls return
    the first servers of the list and leave it rotated by that many
    places.  Without [rotate] every call returns the head of the list and
    changes nothing. *)
Theorem nameservers_round_robin (st : State) (k : nat) :
  (rotate (resolver st) = true ->
   (k <= length (nameservers (resolver st)))%nat ->
   fst (take_servers k st) = take k (nameservers (resolver st)) /\
   nameservers (resolver (snd (take_servers k st))) =
     drop k (nameservers (resolver st)) ++ take k (nameservers (resolver st)))
  /\
  (rotate (resolver st) = true ->
   fst (take_servers (length (nameservers (resolver st))) st) =
     nameservers (resolver st) /\
   nameservers
     (resolver (snd (take_servers (length (nameservers (resolver st))) st))) =
     nameservers (resolver st)) /\
  (rotate (resolver st) = false ->
   forall ns rest, nameservers (resolver st) = ns :: rest ->
   take_servers k st = (replicate k ns, st)).
Proof.
  split; [|split].
  - intros Hrot Hk. apply take_servers_rotating; assumption.
  - intros Hrot.
    destruct (take_servers_rotating (length (nameservers (resolver st))) st
                Hrot (Nat.le_refl _)) as [Hfst Hsnd].
    rewrite Hfst, Hsnd, firstn_all, drop_all. split; reflexivity.
  - intros Hrot ns rest Hn. induction k as [|k IH]; [reflexivity|].
    cbn [take_servers]. unfold _get_next_nameserver. rewrite Hn, Hrot, IH.
    reflexivity.
Qed.

(** *** The trace of the failures *)

(** What is recorded beside the nameserver when a transport call raises. *)
Definition outcome_text (o : outcome) : string :=
  match o with
  | Timeout => "timed out"
  | Failure message => message
  | Reply _ => EmptyString
  end.

Definition raises (o : outcome) : bool :=
  match o with Reply _ => false | _ => true end.

Lemma dispatch_raising (tcp_ : bool) (request : Request) (ns : Nameserver)
  (n : nat) (o : outcome) :
  (forall t, network n t request ns = o) -> raises o = true ->
  dispatch tcp_ request ns n = (o, S n).
Proof.
  intros Hnet Ho. unfold dispatch. destruct tcp_; rewrite Hnet;
    [reflexivity|]. destruct o; [discriminate| |]; reflexivity.
Qed.

Lemma dispatch_replying (tcp_ : bool) (request : Request) (ns : Nameserver)
  (n : nat) (r : Response) :
  (forall t, network n t request ns = Reply r) ->
  Z.land (flags r) TC = 0 ->
  dispatch tcp_ request ns n = (Reply r, S n).
Proof.
  intros Hnet Htc. unfold dispatch. destruct tcp_; rewrite Hnet;
    [reflexivity|]. rewrite Htc. reflexivity.
Qed.

Lemma query_loop_after_failures (tcp_ : bool) (lifetime_ : option Z)
  (start : Z) (request : Request) (r : Response) (ns0 : Nameserver)
  (fails : list outcome) : forall (fuel : nat) (st : State),
  rotate (resolver st) = false ->
  (exists rest, nameservers (resolver st) = ns0 :: rest) ->
  Forall (fun o => raises o = true) fails ->
  (forall i o, fails !! i = Some o ->
     forall t, network (sent st + i) t request ns0 = o) ->
  (forall t, network (sent st + length fails) t request ns0 = Reply r) ->
  Z.land (flags r) TC = 0 ->
  rcode r = NOERROR \/ rcode r = NXDOMAIN_rcode ->
  clock (reads st) - start <= lifetime_or lifetime_ (resolver st) ->
  (length fails < fuel)%nat ->
  exists st',
    query_loop fuel tcp_ lifetime_ start request st =
      Some (inr (r, ns0), st') /\
    errors (resolution st') =
      errors (resolution st) ++ map (fun o => (ns0, outcome_text o)) fails /\
    sent st' = S (sent st + length fails) /\
    reads st' = S (reads st) /\
    resolver st' = resolver st.
Proof.
  induction fails as [|o fails IH];
    intros fuel st Hrot [rest Hns] Hraise Hfail Hreply Htc Hrc Hclock Hfuel.
  - destruct fuel as [|fuel]; [cbn in Hfuel; lia|].
    cbn [query_loop]. unfold _get_next_nameserver. rewrite Hns, Hrot.
    cbn [length] in Hreply. rewrite Nat.add_0_r in Hreply.
    rewrite (dispatch_replying tcp_ request ns0 (sent st) r Hreply Htc).
    cbn [tick set_sent resolver resolution reads sent].
    destruct (Z.gtb_spec (clock (reads st) - start)
                (lifetime_or lifetime_ (resolver st))); [lia|].
    assert (Hdone : (rcode r =? NOERROR) || (rcode r =? NXDOMAIN_rcode)
                    = true).
    { destruct Hrc as [-> | ->]; reflexivity. }
    rewrite Hdone. eexists. split; [reflexivity|].
    cbn. rewrite app_nil_r, Nat.add_0_r, Nat.add_1_r.
    repeat split; reflexivity.
  - destruct fuel as [|fuel]; [cbn in Hfuel; lia|].
    inversion Hraise as [|o' fails' Ho Hraise']; subst.
    cbn [query_loop]. unfold _get_next_nameserver. rewrite Hns, Hrot.
    assert (Hnet0 : forall t, network (sent st) t request ns0 = o).
    { intros t. specialize (Hfail 0%nat o eq_refl t).
      rewrite Nat.add_0_r in Hfail. exact Hfail. }
    rewrite (dispatch_raising tcp_ request ns0 (sent st) o Hnet0 Ho).
    assert (Hgo : forall text,
      exists st',
        query_loop fuel tcp_ lifetime_ start request
          (append_error (ns0, text) (set_sent (S (sent st)) st)) =
          Some (inr (r, ns0), st') /\
        errors (resolution st') =
          (errors (resolution st) ++ [(ns0, text)]) ++
          map (fun o => (ns0, outcome_text o)) fails /\
        sent st' = S (S (sent st) + length fails) /\
        reads st' = S (reads st) /\
        resolver st' = resolver st).
    { intros text.
      destruct (IH fuel (append_error (ns0, text) (set_sent (S (sent st)) st)))
        as (st' & Hq & He & Hs & Hr & Hres).
      - exact Hrot.
      - exists rest. exact Hns.
      - exact Hraise'.
      - intros i o' Hi t. cbn [append_error set_sent sent].
        specialize (Hfail (S i) o' Hi t).
        rewrite Nat.add_succ_r in Hfail. exact Hfail.
      - intros t. cbn [append_error set_sent sent].
        specialize (Hreply t). cbn [length] in Hreply.
        rewrite Nat.add_succ_r in Hreply. exact Hreply.
      - exact Htc.
      - exact Hrc.
      - exact Hclock.
      - cbn [length] in Hfuel. lia.
      - exists st'. split; [exact Hq|]. split; [exact He|].
        split; [exact Hs|]. split; [exact Hr|exact Hres]. }
    destruct o as [r'| |message]; [discriminate Ho| |].
    + destruct (Hgo "timed out"%string) as (st' & -> & He & Hs & Hr & Hres).
      exists st'. split; [reflexivity|]. rewrite He, Hs, Hr, Hres.
      cbn [map outcome_text length]. rewrite <- app_assoc.
      rewrite Nat.add_succ_r. repeat split; reflexivity.
    + destruct (Hgo message) as (st' & -> & He & Hs & Hr & Hres).
      exists st'. split; [reflexivity|]. rewrite He, Hs, Hr, Hres.
      cbn [map outcome_text length]. rewrite <- app_assoc.
      rewrite Nat.add_succ_r. repeat split; reflexivity.
Qed.

(** In a resolver that does not rotate, when the transport calls to the
    first nameserver raise (a per-call timeout or another exception) a
    number of times and then return a NOERROR or NXDOMAIN response within
    the lifetime, the per-server loop returns that response from that
    server, having recorded one [(nameserver, text)] pair per failed
    call, in the order of the calls, [timed out] for a timeout and the
    exception's text otherwise; it has made one transport call per turn
    and read the clock once. *)
Theorem query_loop_traces_failures (tcp_ : bool) (lifetime_ : option Z)
  (start : Z) (request : Request) (r : Response) (ns0 : Nameserver)
  (fails : list outcome) (fuel : nat) (st : State) :
  rotate (resolver st) = false ->
  (exists rest, nameservers (resolver st) = ns0 :: rest) ->
  Forall (fun o => raises o = true) fails ->
  (forall i o, fails !! i = Some o ->
     forall t, network (sent st + i) t request ns0 = o) ->
  (forall t, network (sent st + length fails) t request ns0 = Reply r) ->
  Z.land (flags r) TC = 0 ->
  rcode r = NOERROR \/ rcode r = NXDOMAIN_rcode ->
  clock (reads st) - start <= lifetime_or lifetime_ (resolver st) ->
  (length fails < fuel)%nat ->
  exists st',
    query_loop fuel tcp_ lifetime_ start request st =
      Some (inr (r, ns0), st') /\
    errors (resolution st') =
      errors (resolution st) ++ map (fun o => (ns0, outcome_text o)) fails /\
    sent st' = S (sent st + length fails) /\
    reads st' = S (reads st) /\
    resolver st' = resolver st.
Proof.
  apply query_loop_after_failures.
Qed.

End Engine.

(** *** A stub resolver in a concrete setting

    Names are written in text form; the planner is the one of the
    search-list scenario: [foo] with the search list [a.test.], [b.test.]
    gives [foo.a.test.], [foo.b.test.], [foo.]. *)

Definition planner (self : @Resolver string _ _ string) (q : string)
  (search : option bool) : list string :=
  [String.append q ".a.test."; String.append q ".b.test.";
   String.append q "."].

Definition no_meta (t : Z) : bool := false.

Definition chain (r : Response) : string * option (list string) * Z :=
  (body r, if rcode r =? NOERROR then Some [body r] else None, 60).

Definition stub : @Resolver string _ _ string :=
  mkResolver [mkNameserver "192.0.2.53" 53] 2 5 None None (-1) 0 1232
             (Some (Cache_init 300 0)) false.

(** A server that never answers, and a clock that advances by two
    seconds from one reading to the next. *)
Definition black_hole (n : nat) (t : transport) (rq : @Request string)
  (ns : Nameserver) : outcome := Timeout.

Definition slow_clock (n : nat) : Z := 2 * Z.of_nat n.

(** A server for which no name exists, and a clock that stands still. *)
Definition nxdomain_reply : Response := mkResponse 3 0x8183 "nxdomain".

Definition denying (n : nat) (t : transport) (rq : @Request string)
  (ns : Nameserver) : outcome := Reply nxdomain_reply.

Definition still_clock (n : nat) : Z := 0.

Lemma resolve_black_hole_never_returns_witness :
  resolve "" 0x200 planner no_meta no_meta chain slow_clock black_hole
          1000 stub "foo" 1 1 false true None None = None.
Proof.
  apply (resolve_black_hole_never_returns "" 0x200 planner no_meta no_meta
           chain slow_clock black_hole 1000 stub "foo" 1 1 false true None
           None (Cache_init 300 0)).
  - intros n t rq ns. reflexivity.
  - reflexivity.
  - reflexivity.
  - discriminate.
  - discriminate.
  - reflexivity.
  - reflexivity.
Defined.

Lemma resolve_all_nxdomain_loses_qnames_witness :
  exists e self',
    resolve "" 0x200 planner no_meta no_meta chain still_clock denying
            4 stub "foo" 1 1 false true None None = Some (inl e, self') /\
    e = NXDOMAIN [] {[ ""%string := nxdomain_reply ]} /\
    qnames_of e = [] /\
    responses_of e = {[ ""%string := nxdomain_reply ]}.
Proof.
  apply (resolve_all_nxdomain_loses_qnames "" 0x200 planner no_meta no_meta
           chain still_clock denying 4 stub "foo" 1 1 false true None None
           (Cache_init 300 0) nxdomain_reply).
  - intros n t rq ns. reflexivity.
  - reflexivity.
  - reflexivity.
  - intros n. vm_compute. discriminate.
  - reflexivity.
  - reflexivity.
  - discriminate.
  - discriminate.
  - reflexivity.
  - reflexivity.
  - cbn. lia.
Defined.

(** An answer for [example. IN A] that expires at tick 100, in a cache
    created at tick 0. *)
Definition example_key : @CacheKey string := ("example."%string, 1, 1).

Definition example_answer : @Answer string string :=
  mkAnswer "example." 1 1 (mkResponse 0 0x8180 "192.0.2.1") None "example."
           (Some ["192.0.2.1"%string]) 100.

Lemma cache_put_get_witness :
  let cache := put example_key example_answer 40 (Cache_init 300 0) in
  (fst (get example_key 50 50 cache) = Some example_answer /\
   hits (statistics (snd (get example_key 50 50 cache))) =
     hits (statistics cache) + 1 /\
   misses (statistics (snd (get example_key 50 50 cache))) =
     misses (statistics cache)) /\
  (fst (get example_key 100 100 cache) = None /\
   misses (statistics (snd (get example_key 100 100 cache))) =
     misses (statistics cache) + 1 /\
   hits (statistics (snd (get example_key 100 100 cache))) =
     hits (statistics cache)).
Proof.
  split.
  - apply (proj1 (cache_put_get (Cache_init 300 0) example_key
                    example_answer 40 50 50)); reflexivity.
  - apply (proj1 (proj2 (cache_put_get (Cache_init 300 0) example_key
                           example_answer 40 100 100))).
    cbn. lia.
Defined.

(** An LRU cache of size two into which [example_answer] was put once. *)
Definition lru_once : @LRUCache string _ _ string :=
  mkLRUCache (mkCacheStatistics 0 0)
             {[ example_key := mkLRUCacheNode example_answer 0 ]}
             [example_key] 2.

Lemma lru_put_existing_counts_hit_witness :
  exists self',
    lru_put 0 example_key example_answer lru_once = Some self' /\
    lru_data self' !! example_key =
      Some (mkLRUCacheNode example_answer (0 + 1)) /\
    get_hits_for_key example_key self' =
      get_hits_for_key example_key lru_once + 1 /\
    head (lru_order self') = Some example_key /\
    lru_statistics self' = lru_statistics lru_once.
Proof.
  apply (lru_put_existing_counts_hit 0 lru_once example_key example_answer
           (mkLRUCacheNode example_answer 0)).
  apply lookup_singleton_eq.
Defined.

(** The cache after [example_answer] was put at tick 40, swept at tick
    400 (the first sweep is due at tick 300, the answer expired at 100). *)
Definition example_cache : @Cache string _ _ string :=
  put example_key example_answer 40 (Cache_init 300 0).

Lemma sweep_removes_exactly_expired_witness :
  (forall k a, data (_maybe_clean 400 example_cache) !! k = Some a <->
               data example_cache !! k = Some a /\ 400 < expiration a) /\
  next_cleaning (_maybe_clean 400 example_cache) =
    400 + cleaning_interval example_cache.
Proof.
  apply (proj1 (sweep_removes_exactly_expired example_cache 400)).
  vm_compute. discriminate.
Defined.

Definition other_key : @CacheKey string := ("other."%string, 1, 1).

Lemma lru_get_counts_witness :
  fst (lru_get example_key 50 lru_once) = Some example_answer /\
  get_hits_for_key example_key (snd (lru_get example_key 50 lru_once)) =
    get_hits_for_key example_key lru_once + 1 /\
  hits (lru_statistics (snd (lru_get example_key 50 lru_once))) =
    hits (lru_statistics lru_once) + 1 /\
  misses (lru_statistics (snd (lru_get example_key 50 lru_once))) =
    misses (lru_statistics lru_once).
Proof.
  apply (proj1 (proj2 (lru_get_counts lru_once example_key 50))
           (mkLRUCacheNode example_answer 0)).
  - apply lookup_singleton_eq.
  - reflexivity.
Defined.

Lemma lru_put_new_key_witness :
  exists self',
    lru_put 0 other_key example_answer lru_once = Some self' /\
    lru_data self' !! other_key = Some (mkLRUCacheNode example_answer 0) /\
    get_hits_for_key other_key self' = 0 /\
    size (lru_data self') = S (size (lru_data lru_once)) /\
    (forall k, k <> other_key -> lru_data self' !! k = lru_data lru_once !! k)
    /\ lru_statistics self' = lru_statistics lru_once.
Proof.
  apply (lru_put_new_key 0 lru_once other_key example_answer).
  - apply lookup_singleton_ne. discriminate.
  - vm_compute. reflexivity.
Defined.

(** A resolution of [foo] that has two candidates left, in a resolver
    with two nameservers that rotates. *)
Definition two_left : @State string _ _ string :=
  mkState stub
    (mkResolution ["foo.a.test."; "foo."]%string ["foo.a.test."; "foo."]%string
       1 1 false true ∅ "" [])
    1 0.

Definition rotating : @State string _ _ string :=
  mkState
    (mkResolver [mkNameserver "192.0.2.53" 53; mkNameserver "192.0.2.54" 53]
       2 5 None None (-1) 0 1232 (Some (Cache_init 300 0)) true)
    (mkResolution ["foo."]%string ["foo."]%string 1 1 false true ∅ "" [])
    1 0.

Lemma next_request_gives_one_witness :
  exists tried,
    qnames (resolution two_left) =
    tried ++ qnames (resolution (snd (next_request still_clock two_left))).
Proof.
  apply (proj1 (proj2 (proj2
           (next_request_gives_one still_clock two_left
              (snd (next_request still_clock two_left))
              (Some (make_request stub ("foo.a.test."%string, 1, 1)))
              None eq_refl)))).
Defined.

Lemma nameservers_round_robin_witness :
  fst (take_servers 2 rotating) = nameservers (resolver rotating) /\
  nameservers (resolver (snd (take_servers 2 rotating))) =
    nameservers (resolver rotating).
Proof.
  apply (proj1 (proj2 (nameservers_round_robin rotating 2))). reflexivity.
Defined.

(** A server that times out, then refuses the connection, then answers. *)
Definition ok_reply : Response := mkResponse 0 0x8180 "192.0.2.1".

Definition flaky (n : nat) (t : transport) (rq : @Request string)
  (ns : Nameserver) : outcome :=
  match n with
  | O => Timeout
  | S O => Failure "connection refused"
  | _ => Reply ok_reply
  end.

Definition foo_request : @Request string :=
  make_request stub ("foo.a.test."%string, 1, 1).

Lemma query_loop_traces_failures_witness :
  exists st',
    query_loop 0x200 still_clock flaky 3 false None 0 foo_request two_left =
      Some (inr (ok_reply, mkNameserver "192.0.2.53" 53), st') /\
    errors (resolution st') =
      errors (resolution two_left) ++
      map (fun o => (mkNameserver "192.0.2.53" 53, outcome_text o))
          [Timeout; Failure "connection refused"] /\
    sent st' = S (sent two_left + length [Timeout; Failure "connection refused"])
    /\ reads st' = S (reads two_left) /\
    resolver st' = resolver two_left.
Proof.
  apply (query_loop_traces_failures 0x200 still_clock flaky false None 0
           foo_request ok_reply (mkNameserver "192.0.2.53" 53)
           [Timeout; Failure "connection refused"] 3 two_left).
  - reflexivity.
  - exists []. reflexivity.
  - repeat constructor.
  - intros [|[|i]] o Hi t; cbn in Hi; inversion Hi; reflexivity.
  - intros t. reflexivity.
  - reflexivity.
  - left. reflexivity.
  - vm_compute. discriminate.
  - cbn. lia.
Defined.

(** A server that answers, but only after the lifetime has run out. *)
Definition answering (n : nat) (t : transport) (rq : @Request string)
  (ns : Nameserver) : outcome := Reply ok_reply.

Definition late_clock (n : nat) : Z := 10 * Z.of_nat n.

Lemma query_loop_reply_checks_lifetime_witness :
  exists st',
    query_loop 0x200 late_clock answering (S 0) false None 0 foo_request
               two_left =
    Some (inl (LifetimeTimeout (lifetime (resolver two_left))
                               (errors (resolution two_left))), st').
Proof.
  apply (query_loop_reply_checks_lifetime 0x200 late_clock answering 0 false
           None 0 foo_request ok_reply two_left).
  - intros n t rq ns. reflexivity.
  - reflexivity.
  - discriminate.
  - reflexivity.
Defined.

End resolver.

(* ===================================================================== *)
(** ** dns/xfr.py *)
(* ===================================================================== *)

Module xfr.
Local Open Scope Z_scope.

(** [dns.rdatatype.SOA], [IXFR] and [AXFR]: the type codes of RFC 1035 and
    RFC 1995. *)
Definition SOA : Z := 6.
Definition IXFR : Z := 251.
Definition AXFR : Z := 252.

Inductive error : Type :=
| ValueError
| IndexError
| AttributeError
| TypeError.

(** A record of an RRset: an SOA record with its serial, or another one. *)
Inductive Rdata : Type :=
| SOA_rdata (serial_ : Z) (rest : string)
| Other_rdata (text : string).

Record RRset : Type := mkRRset {
  name : string;
  rdtype : Z;
  items : list Rdata
}.

#[global] Instance Rdata_eq_dec : EqDecision Rdata.
Proof. solve_decision. Defined.

#[global] Instance RRset_eq_dec : EqDecision RRset.
Proof. solve_decision. Defined.

Record Message : Type := mkMessage {
  answer : list RRset
}.

(** A write transaction, as the sequence of the calls made on it. *)
Inductive txn_call : Type :=
| add (rrset : RRset)
| delete (rrset : RRset)
| commit
| rollback.

Record Inbound : Type := mkInbound {
  txn : option (list txn_call);
  inbound_rdtype : Z;
  serial : option Z;
  is_udp : bool;
  soa_rdataset : option RRset;
  done : bool;
  expecting_SOA : bool;
  delete_mode : bool
}.

(** [Inbound.__init__] *)
Definition Inbound_init (rdtype_ : Z) (serial_ : option Z) (is_udp_ : bool)
  : error + Inbound :=
  let self := mkInbound None rdtype_ serial_ is_udp_ None false false false in
  if rdtype_ =? IXFR then
    match serial_ with
    | None => inl ValueError
    | Some _ => inr self
    end
  else if is_udp_ then inl ValueError
  else inr self.

Definition call (c : txn_call) (self : Inbound) : Inbound :=
  mkInbound
    (match txn self with
     | Some calls => Some (calls ++ [c])
     | None => None
     end)
    (inbound_rdtype self) (serial self) (is_udp self) (soa_rdataset self)
    (done self) (expecting_SOA self) (delete_mode self).

Definition set_soa_rdataset (rrset : RRset) (self : Inbound) : Inbound :=
  mkInbound (txn self) (inbound_rdtype self) (serial self) (is_udp self)
    (Some rrset) (done self) (expecting_SOA self) (delete_mode self).

Definition set_done (self : Inbound) : Inbound :=
  mkInbound (txn self) (inbound_rdtype self) (serial self) (is_udp self)
    (soa_rdataset self) true (expecting_SOA self) (delete_mode self).

Definition toggle_delete_mode (self : Inbound) : Inbound :=
  mkInbound (txn self) (inbound_rdtype self) (serial self) (is_udp self)
    (soa_rdataset self) (done self) (expecting_SOA self)
    (negb (delete_mode self)).

Definition open_txn (self : Inbound) : Inbound :=
  mkInbound (Some []) (inbound_rdtype self) (serial self) (is_udp self)
    (soa_rdataset self) (done self) (expecting_SOA self) (delete_mode self).

(** [rrset[0].serial] *)
Definition first_serial (rrset : RRset) : error + Z :=
  match items rrset with
  | [] => inl IndexError
  | SOA_rdata s _ :: _ => inr s
  | Other_rdata _ :: _ => inl AttributeError
  end.

Section Transfer.
(** [dns.serial.Serial(a) <= dns.serial.Serial(b)]: the comparison of
    serial numbers belongs to a module that is not among the sources. *)
Variable serial_le : Z -> Z -> bool.

Fixpoint _process_axfr_message (rrsets : list RRset) (self : Inbound)
  : (error + bool) * Inbound :=
  match rrsets with
  | [] => (inr false, self)
  | rrset :: rest =>
      if rdtype rrset =? SOA then
        match soa_rdataset self with
        | None =>
            _process_axfr_message rest
              (call (add rrset) (set_soa_rdataset rrset self))
        | Some _ => (inr true, set_done (call commit self))
        end
      else _process_axfr_message rest (call (add rrset) self)
  end.

Fixpoint _process_ixfr_message (rrsets : list RRset) (self : Inbound)
  : (error + bool) * Inbound :=
  match rrsets with
  | [] => (inr false, self)
  | rrset :: rest =>
      if rdtype rrset =? SOA then
        match soa_rdataset self with
        | None =>
            let self1 := set_soa_rdataset rrset self in
            match first_serial rrset, serial self1 with
            | inl e, _ => (inl e, self1)
            | inr _, None => (inl TypeError, self1)
            | inr s, Some base =>
                if serial_le s base
                then (inr true, set_done self1)
                else _process_ixfr_message rest self1
            end
        | Some soa =>
            if bool_decide (rrset = soa)
            then (inr true, set_done (call commit self))
            else _process_ixfr_message rest (toggle_delete_mode self)
        end
      else if delete_mode self
      then _process_ixfr_message rest (call (delete rrset) self)
      else _process_ixfr_message rest (call (add rrset) self)
  end.

Definition process_message (message : Message) (self : Inbound)
  : (error + bool) * Inbound :=
  let self1 := match txn self with
               | None => open_txn self
               | Some _ => self
               end in
  if inbound_rdtype self1 =? AXFR
  then _process_axfr_message (answer message) self1
  else if inbound_rdtype self1 =? IXFR
  then _process_ixfr_message (answer message) self1
  else (inl ValueError, self1).

(** C6: for an IXFR [Inbound] initialised with the base serial [base], a
    first message whose first RR is an SOA with a serial at most [base]
    in serial arithmetic makes [process_message] return [True] on that
    first call and sets [done]; the transaction, opened by the call, has
    had no call made on it, so nothing was committed. *)
Theorem ixfr_no_change_done_without_commit (base s : Z) (is_udp_ : bool)
  (soa : RRset) (rest : list RRset) (self : Inbound) :
  Inbound_init IXFR (Some base) is_udp_ = inr self ->
  rdtype soa = SOA ->
  first_serial soa = inr s ->
  serial_le s base = true ->
  exists self',
    process_message (mkMessage (soa :: rest)) self = (inr true, self') /\
    done self' = true /\
    txn self' = Some [] /\
    (forall calls, txn self' = Some calls -> ~ In commit calls).
Proof.
  intros Hinit Hsoa Hserial Hle.
  unfold Inbound_init in Hinit. cbn in Hinit. inversion Hinit; subst self.
  unfold process_message.
  cbn [txn open_txn inbound_rdtype answer _process_ixfr_message
       soa_rdataset set_soa_rdataset serial].
  change (IXFR =? AXFR) with false. change (IXFR =? IXFR) with true.
  cbv beta iota. rewrite Hsoa. change (SOA =? SOA) with true. cbv beta iota.
  rewrite Hserial, Hle.
  eexists. split; [reflexivity|]. cbn. split; [reflexivity|].
  split; [reflexivity|].
  intros calls Hc. inversion Hc; subst calls. intros [].
Qed.

End Transfer.

(** RFC 1982 comparison of 32-bit serial numbers, as [dns.serial.Serial]
    implements [<=]. *)
Definition rfc1982_le (a b : Z) : bool :=
  let a := a mod 2 ^ 32 in
  let b := b mod 2 ^ 32 in
  (a =? b)
  || ((a <? b) && (b - a <? 2 ^ 31))
  || ((b <? a) && (2 ^ 31 <? a - b)).

(** The scenario of the specification: base serial 100, opening SOA with
    serial 100. *)
Definition opening_soa : RRset :=
  mkRRset "example." SOA [SOA_rdata 100 "ns. hostmaster. 3600 600 86400 60"].

Definition ixfr_at_100 : Inbound :=
  mkInbound None IXFR (Some 100) false None false false false.

Lemma ixfr_no_change_done_without_commit_witness :
  exists self',
    process_message rfc1982_le (mkMessage [opening_soa]) ixfr_at_100 =
      (inr true, self') /\
    done self' = true /\
    txn self' = Some [] /\
    (forall calls, txn self' = Some calls -> ~ In commit calls).
Proof.
  apply (ixfr_no_change_done_without_commit rfc1982_le 100 100 false
           opening_soa [] ixfr_at_100); reflexivity.
Defined.

(** *** Whole transfers, and transfers cut into messages *)

#[global] Instance txn_call_eq_dec : EqDecision txn_call.
Proof. solve_decision. Defined.

(** The calls made on the transaction so far. *)
Definition calls_of (self : Inbound) : list txn_call := default [] (txn self).

(** How often [c] was called. *)
Definition times (c : txn_call) (self : Inbound) : nat :=
  count_occ txn_call_eq_dec (calls_of self) c.

(** [Inbound.__exit__] *)
Definition __exit__ (self : Inbound) : Inbound :=
  match txn self with
  | Some _ => call rollback self
  | None => self
  end.

Lemma times_call (c d : txn_call) (self : Inbound) :
  (c <> d -> times c (call d self) = times c self) /\
  (times c (call d self) <= S (times c self))%nat.
Proof.
  unfold times, calls_of, call. cbn [txn].
  destruct (txn self) as [calls|]; cbn [default from_option id].
  - rewrite count_occ_app. cbn [count_occ].
    destruct (txn_call_eq_dec d c) as [->|Hne].
    + split; [congruence|lia].
    + split; [intros _|]; lia.
  - split; [reflexivity|]. cbn. lia.
Qed.

(** What both loops keep: the kind of transfer, an open transaction, the
    number of rollbacks; from a state that is not done, [done] is set
    exactly when the loop returns [True]; and a commit is made at most
    once, and only then. *)
Definition kept (self : Inbound) (r : error + bool) (self' : Inbound) : Prop :=
  inbound_rdtype self' = inbound_rdtype self /\
  (is_Some (txn self) -> is_Some (txn self')) /\
  (done self = false -> (done self' = true <-> r = inr true)) /\
  times rollback self' = times rollback self /\
  (r <> inr true -> times commit self' = times commit self) /\
  (times commit self' <= S (times commit self))%nat.

Lemma times_txn (c : txn_call) (self base : Inbound) :
  txn base = txn self -> times c base = times c self.
Proof. intros Htxn. unfold times, calls_of. rewrite Htxn. reflexivity. Qed.

Lemma call_txn (c : txn_call) (self : Inbound) :
  is_Some (txn self) -> is_Some (txn (call c self)).
Proof.
  intros [calls Hc]. unfold call. cbn [txn]. rewrite Hc.
  eexists. reflexivity.
Qed.

(** The loop stops without a commit and without setting [done]. *)
Lemma kept_stop (self base : Inbound) (r : error + bool) :
  txn base = txn self -> inbound_rdtype base = inbound_rdtype self ->
  done base = done self -> r <> inr true ->
  kept self r base.
Proof.
  intros Htxn Hrd Hdn Hr. unfold kept.
  split; [exact Hrd|]. split; [rewrite Htxn; tauto|].
  split.
  { intros Hd. rewrite Hdn, Hd. split; [discriminate|].
    intros H. contradiction. }
  split; [apply times_txn; exact Htxn|].
  split; [intros _; apply times_txn; exact Htxn|].
  rewrite (times_txn commit self base Htxn). lia.
Qed.

(** The loop stops with [done] set and without a commit. *)
Lemma kept_finish (self base : Inbound) :
  txn base = txn self -> inbound_rdtype base = inbound_rdtype self ->
  kept self (inr true) (set_done base).
Proof.
  intros Htxn Hrd. unfold kept.
  split; [exact Hrd|].
  split; [change (txn (set_done base)) with (txn base); rewrite Htxn; tauto|].
  split; [intros _; split; intros _; reflexivity|].
  split; [exact (times_txn rollback self (set_done base) Htxn)|].
  split; [intros H; exfalso; apply H; reflexivity|].
  rewrite (times_txn commit self (set_done base) Htxn). lia.
Qed.

(** The loop stops with a commit and [done] set. *)
Lemma kept_commit (self : Inbound) :
  kept self (inr true) (set_done (call commit self)).
Proof.
  unfold kept.
  split; [reflexivity|]. split; [exact (call_txn commit self)|].
  split; [intros _; split; intros _; reflexivity|].
  split.
  { apply (proj1 (times_call rollback commit self)). discriminate. }
  split; [intros H; exfalso; apply H; reflexivity|].
  exact (proj2 (times_call commit commit self)).
Qed.

Lemma kept_step (self mid self' : Inbound) (r : error + bool) :
  inbound_rdtype mid = inbound_rdtype self ->
  (is_Some (txn self) -> is_Some (txn mid)) ->
  done mid = done self ->
  times rollback mid = times rollback self ->
  times commit mid = times commit self ->
  kept mid r self' -> kept self r self'.
Proof.
  intros Hrd Htxn Hdn Hrb Hc (Hrd' & Htxn' & Hdone & Hrb' & Hc' & Hle).
  unfold kept. rewrite Hrd', Hrd, Hrb', Hrb, <- Hc, <- Hdn.
  split; [reflexivity|]. split; [tauto|]. split; [exact Hdone|].
  split; [reflexivity|]. split; [exact Hc'|exact Hle].
Qed.

(** The loop goes on after a call that is neither a commit nor a
    rollback. *)
Lemma kept_call (self base self' : Inbound) (c : txn_call)
  (r : error + bool) :
  txn base = txn self -> inbound_rdtype base = inbound_rdtype self ->
  done base = done self ->
  c <> commit -> c <> rollback ->
  kept (call c base) r self' -> kept self r self'.
Proof.
  intros Htxn Hrd Hdn Hc Hr Hk.
  apply (kept_step self (call c base) self' r); [| | | | |exact Hk].
  - exact Hrd.
  - intros Hs. apply call_txn. rewrite Htxn. exact Hs.
  - exact Hdn.
  - rewrite <- (times_txn rollback self base Htxn).
    apply (proj1 (times_call rollback c base)). congruence.
  - rewrite <- (times_txn commit self base Htxn).
    apply (proj1 (times_call commit c base)). congruence.
Qed.

(** The loop goes on without a call. *)
Lemma kept_same (self base self' : Inbound) (r : error + bool) :
  txn base = txn self -> inbound_rdtype base = inbound_rdtype self ->
  done base = done self ->
  kept base r self' -> kept self r self'.
Proof.
  intros Htxn Hrd Hdn Hk.
  apply (kept_step self base self' r); [| | | | |exact Hk].
  - exact Hrd.
  - rewrite Htxn. tauto.
  - exact Hdn.
  - apply times_txn. exact Htxn.
  - apply times_txn. exact Htxn.
Qed.

Lemma axfr_kept (rrsets : list RRset) : forall self r self',
  _process_axfr_message rrsets self = (r, self') ->
  kept self r self'.
Proof.
  induction rrsets as [|rrset rest IH]; intros self r self' Hp.
  - cbn in Hp. inversion Hp; subst.
    apply kept_stop; try reflexivity. discriminate.
  - cbn [_process_axfr_message] in Hp.
    destruct (rdtype rrset =? SOA).
    + destruct (soa_rdataset self) as [soa|].
      * inversion Hp; subst. apply kept_commit.
      * apply IH in Hp.
        apply (kept_call self (set_soa_rdataset rrset self) self'
                 (add rrset) r); try reflexivity; try discriminate.
        exact Hp.
    + apply IH in Hp.
      apply (kept_call self self self' (add rrset) r);
        try reflexivity; try discriminate.
      exact Hp.
Qed.

Lemma axfr_app (a b : list RRset) : forall self,
  _process_axfr_message (a ++ b) self =
  match _process_axfr_message a self with
  | (inr false, self') => _process_axfr_message b self'
  | other => other
  end.
Proof.
  induction a as [|rrset a IH]; intros self; [reflexivity|].
  cbn [app _process_axfr_message].
  destruct (rdtype rrset =? SOA); [|apply IH].
  destruct (soa_rdataset self); [reflexivity|apply IH].
Qed.

Lemma axfr_body (soa soa2 : RRset) (rest : list RRset) (body : list RRset) :
  rdtype soa2 = SOA ->
  Forall (fun rrset => rdtype rrset <> SOA) body ->
  forall calls st,
    txn st = Some calls -> soa_rdataset st = Some soa ->
    exists self',
      _process_axfr_message (body ++ soa2 :: rest) st = (inr true, self') /\
      txn self' = Some (calls ++ map add body ++ [commit]) /\
      done self' = true /\ soa_rdataset self' = Some soa.
Proof.
  intros Hsoa2 Hbody.
  induction Hbody as [|rrset body Hx Hxs IH]; intros calls st Htxn Hs.
  - cbn [app _process_axfr_message]. rewrite Hsoa2.
    change (SOA =? SOA) with true. cbv beta iota. rewrite Hs.
    eexists. split; [reflexivity|].
    cbn [set_done call txn done soa_rdataset map app]. rewrite Htxn.
    split; [reflexivity|]. split; [reflexivity|exact Hs].
  - cbn [app _process_axfr_message].
    destruct (Z.eqb_spec (rdtype rrset) SOA) as [Heq|Hne]; [contradiction|].
    destruct (IH (calls ++ [add rrset]) (call (add rrset) st))
      as (self' & Hp & Ht & Hd & Hs').
    + unfold call. cbn [txn]. rewrite Htxn. reflexivity.
    + exact Hs.
    + exists self'. split; [exact Hp|]. split; [|split; assumption].
      rewrite Ht. cbn [map]. rewrite <- !app_assoc. reflexivity.
Qed.

Section Split.
Variable serial_le : Z -> Z -> bool.

(** A whole AXFR in one message: from a fresh [Inbound], a message whose
    answer section is an SOA, then records that are not SOAs, then an SOA
    again (and whatever follows) makes [process_message] return [True];
    the transaction has had the first SOA and the records added in their
    order and has then been committed; the closing SOA is not added, and
    nothing after it is looked at. *)
Theorem axfr_whole_transfer (serial_ : option Z) (self : Inbound)
  (soa soa2 : RRset) (body rest : list RRset) :
  Inbound_init AXFR serial_ false = inr self ->
  rdtype soa = SOA -> rdtype soa2 = SOA ->
  Forall (fun rrset => rdtype rrset <> SOA) body ->
  exists self',
    process_message serial_le (mkMessage (soa :: body ++ soa2 :: rest)) self =
      (inr true, self') /\
    txn self' = Some (add soa :: map add body ++ [commit]) /\
    done self' = true /\
    soa_rdataset self' = Some soa.
Proof.
  intros Hinit Hsoa Hsoa2 Hbody.
  unfold Inbound_init in Hinit. cbn in Hinit. inversion Hinit; subst self.
  unfold process_message.
  cbn [txn open_txn inbound_rdtype answer _process_axfr_message
       soa_rdataset].
  change (AXFR =? AXFR) with true. cbv beta iota. rewrite Hsoa.
  change (SOA =? SOA) with true. cbv beta iota.
  destruct (axfr_body soa soa2 rest body Hsoa2 Hbody [add soa]
              (call (add soa)
                 (set_soa_rdataset soa
                    (mkInbound (Some []) AXFR serial_ false None false false
                       false))))
    as (self' & Hp & Ht & Hd & Hs); [reflexivity|reflexivity|].
  exists self'. split; [exact Hp|]. split; [exact Ht|]. split; assumption.
Qed.

Lemma ixfr_kept (rrsets : list RRset) : forall self r self',
  _process_ixfr_message serial_le rrsets self = (r, self') ->
  kept self r self'.
Proof.
  induction rrsets as [|rrset rest IH]; intros self r self' Hp.
  - cbn in Hp. inversion Hp; subst.
    apply kept_stop; try reflexivity. discriminate.
  - cbn [_process_ixfr_message] in Hp.
    destruct (rdtype rrset =? SOA).
    + destruct (soa_rdataset self) as [soa|].
      * destruct (bool_decide (rrset = soa)).
        -- inversion Hp; subst. apply kept_commit.
        -- apply IH in Hp.
           apply (kept_same self (toggle_delete_mode self) self' r);
             try reflexivity.
           exact Hp.
      * cbv zeta in Hp.
        destruct (first_serial rrset) as [e|s].
        -- inversion Hp; subst.
           apply kept_stop; try reflexivity. discriminate.
        -- destruct (serial (set_soa_rdataset rrset self)) as [base|].
           ++ destruct (serial_le s base).
              ** inversion Hp; subst. apply kept_finish; reflexivity.
              ** apply IH in Hp.
                 apply (kept_same self (set_soa_rdataset rrset self) self' r);
                   try reflexivity.
                 exact Hp.
           ++ inversion Hp; subst.
              apply kept_stop; try reflexivity. discriminate.
    + destruct (delete_mode self).
      * apply IH in Hp.
        apply (kept_call self self self' (delete rrset) r);
          try reflexivity; try discriminate.
        exact Hp.
      * apply IH in Hp.
        apply (kept_call self self self' (add rrset) r);
          try reflexivity; try discriminate.
        exact Hp.
Qed.

Lemma ixfr_app (a b : list RRset) : forall self,
  _process_ixfr_message serial_le (a ++ b) self =
  match _process_ixfr_message serial_le a self with
  | (inr false, self') => _process_ixfr_message serial_le b self'
  | other => other
  end.
Proof.
  induction a as [|rrset a IH]; intros self; [reflexivity|].
  cbn [app _process_ixfr_message].
  destruct (rdtype rrset =? SOA).
  - destruct (soa_rdataset self) as [soa|].
    + destruct (bool_decide (rrset = soa)); [reflexivity|apply IH].
    + cbv zeta. destruct (first_serial rrset) as [e|s]; [reflexivity|].
      destruct (serial (set_soa_rdataset rrset self)) as [base|];
        [|reflexivity].
      destruct (serial_le s base); [reflexivity|apply IH].
  - destruct (delete_mode self); apply IH.
Qed.

(** [process_message] opens the transaction when there is none and then
    runs one of the loops. *)
Lemma process_message_kept (message : Message) (self : Inbound)
  (r : error + bool) (self' : Inbound) :
  process_message serial_le message self = (r, self') ->
  inbound_rdtype self' = inbound_rdtype self /\
  is_Some (txn self') /\
  (done self = false -> (done self' = true <-> r = inr true)) /\
  times rollback self' = times rollback self /\
  (r <> inr true -> times commit self' = times commit self) /\
  (times commit self' <= S (times commit self))%nat.
Proof.
  intros Hp. unfold process_message in Hp. cbv zeta in Hp.
  assert (H1 : exists self1,
    self1 = match txn self with
            | Some _ => self
            | None => open_txn self
            end /\
    inbound_rdtype self1 = inbound_rdtype self /\
    is_Some (txn self1) /\ done self1 = done self /\
    times rollback self1 = times rollback self /\
    times commit self1 = times commit self).
  { eexists. split; [reflexivity|].
    unfold times, calls_of. destruct (txn self) as [calls|] eqn:Ht.
    - rewrite ?Ht. split; [reflexivity|]. split; [eexists; reflexivity|].
      split; [reflexivity|]. split; reflexivity.
    - split; [reflexivity|]. split; [eexists; reflexivity|].
      split; [reflexivity|]. split; reflexivity. }
  destruct H1 as (self1 & Heq & Hrd & Htxn & Hdn & Hrb & Hc).
  rewrite <- Heq in Hp. clear Heq.
  assert (Hk : kept self1 r self').
  { destruct (inbound_rdtype self1 =? AXFR).
    - exact (axfr_kept _ _ _ _ Hp).
    - destruct (inbound_rdtype self1 =? IXFR).
      + exact (ixfr_kept _ _ _ _ Hp).
      + inversion Hp; subst.
        apply kept_stop; try reflexivity. discriminate. }
  destruct Hk as (Hrd' & Htxn' & Hdone & Hrb' & Hc' & Hle).
  rewrite Hrd', Hrb', Hrd, Hrb, <- Hc, <- Hdn.
  split; [reflexivity|]. split; [exact (Htxn' Htxn)|]. split; [exact Hdone|].
  split; [reflexivity|]. split; [exact Hc'|exact Hle].
Qed.

(** For an [Inbound] that is not done, [process_message] sets [done]
    exactly when it returns [True]: not when it returns [False], and not
    when it raises. *)
Theorem process_message_done_iff_true (message : Message) (self : Inbound) :
  done self = false ->
  done (snd (process_message serial_le message self)) = true <->
  fst (process_message serial_le message self) = inr true.
Proof.
  intros Hd.
  destruct (process_message serial_le message self) as [r self'] eqn:Hp.
  destruct (process_message_kept message self r self' Hp)
    as (_ & _ & Hdone & _).
  cbn [fst snd]. exact (Hdone Hd).
Qed.

(** Whatever the message and the state, [process_message] commits the
    transaction at most once, and not at all unless it returns [True]; it
    never rolls the transaction back; and it leaves a transaction
    open. *)
Theorem process_message_commits_at_most_once (message : Message)
  (self : Inbound) :
  (times commit (snd (process_message serial_le message self)) <=
   S (times commit self))%nat /\
  (fst (process_message serial_le message self) <> inr true ->
   times commit (snd (process_message serial_le message self)) =
   times commit self) /\
  times rollback (snd (process_message serial_le message self)) =
    times rollback self /\
  is_Some (txn (snd (process_message serial_le message self))).
Proof.
  destruct (process_message serial_le message self) as [r self'] eqn:Hp.
  destruct (process_message_kept message self r self' Hp)
    as (_ & Htxn & _ & Hrb & Hc & Hle).
  cbn [fst snd]. split; [exact Hle|]. split; [exact Hc|].
  split; [exact Hrb|exact Htxn].
Qed.

(** Leaving the [with] block after a message has been processed rolls the
    transaction back once, whatever [process_message] returned or raised:
    also after the transfer was committed. *)
Theorem exit_after_message_rolls_back (message : Message) (self : Inbound) :
  times rollback (__exit__ (snd (process_message serial_le message self))) =
  S (times rollback self).
Proof.
  destruct (process_message serial_le message self) as [r self'] eqn:Hp.
  destruct (process_message_kept message self r self' Hp)
    as (_ & [calls Htxn] & _ & Hrb & _).
  cbn [fst snd]. rewrite <- Hrb.
  unfold __exit__, times, calls_of, call. rewrite Htxn.
  cbn [txn default from_option id]. rewrite count_occ_app.
  cbn [count_occ].
  destruct (txn_call_eq_dec rollback rollback) as [_|Hne];
    [lia|contradiction].
Qed.

(** A stream of records may be cut into messages anywhere: when the
    message with the records [a] has been processed and has returned
    [False], processing the message with the records [b] next gives the
    result and the state that the one message with [a] followed by [b]
    gives. *)
Theorem process_message_split (a b : list RRset) (self : Inbound) :
  fst (process_message serial_le (mkMessage a) self) = inr false ->
  process_message serial_le (mkMessage b)
    (snd (process_message serial_le (mkMessage a) self)) =
  process_message serial_le (mkMessage (a ++ b)) self.
Proof.
  intros Hfirst.
  destruct (process_message serial_le (mkMessage a) self) as [r self'] eqn:Hp.
  cbn [fst snd] in Hfirst |- *. subst r.
  destruct (process_message_kept (mkMessage a) self (inr false) self' Hp)
    as (Hrd & [calls Htxn] & _).
  unfold process_message in Hp |- *. cbv zeta in Hp |- *.
  cbn [answer] in Hp |- *.
  rewrite Htxn. cbv beta iota.
  assert (H1 : exists self1,
    self1 = match txn self with
            | Some _ => self
            | None => open_txn self
            end /\
    inbound_rdtype self1 = inbound_rdtype self).
  { eexists. split; [reflexivity|]. destruct (txn self); reflexivity. }
  destruct H1 as (self1 & Heq & Hrd1).
  rewrite <- Heq in Hp |- *. clear Heq.
  rewrite Hrd, <- Hrd1.
  destruct (inbound_rdtype self1 =? AXFR).
  - rewrite axfr_app, Hp. reflexivity.
  - destruct (inbound_rdtype self1 =? IXFR).
    + rewrite ixfr_app, Hp. reflexivity.
    + discriminate Hp.
Qed.

End Split.

(** A transfer of three records, cut after the second. *)
Definition a_record : RRset :=
  mkRRset "www.example." 1 [Other_rdata "192.0.2.1"].

Definition axfr_fresh : Inbound :=
  mkInbound None AXFR None false None false false false.

Lemma axfr_whole_transfer_witness :
  exists self',
    process_message rfc1982_le
      (mkMessage (opening_soa :: [a_record] ++ opening_soa :: [a_record]))
      axfr_fresh = (inr true, self') /\
    txn self' = Some (add opening_soa :: map add [a_record] ++ [commit]) /\
    done self' = true /\
    soa_rdataset self' = Some opening_soa.
Proof.
  apply (axfr_whole_transfer rfc1982_le None axfr_fresh opening_soa
           opening_soa [a_record] [a_record]).
  - reflexivity.
  - reflexivity.
  - reflexivity.
  - constructor; [discriminate|constructor].
Defined.

Lemma process_message_done_iff_true_witness :
  done (snd (process_message rfc1982_le (mkMessage [opening_soa])
               ixfr_at_100)) = true <->
  fst (process_message rfc1982_le (mkMessage [opening_soa]) ixfr_at_100) =
    inr true.
Proof.
  apply (process_message_done_iff_true rfc1982_le (mkMessage [opening_soa])
           ixfr_at_100).
  reflexivity.
Defined.

Lemma process_message_split_witness :
  process_message rfc1982_le (mkMessage [opening_soa])
    (snd (process_message rfc1982_le (mkMessage [opening_soa; a_record])
            axfr_fresh)) =
  process_message rfc1982_le
    (mkMessage ([opening_soa; a_record] ++ [opening_soa])) axfr_fresh.
Proof.
  apply (process_message_split rfc1982_le [opening_soa; a_record]
           [opening_soa] axfr_fresh).
  reflexivity.
Defined.

End xfr.
